(** * Organism.h: sparse Conway's Game of Life — shallow embedding and proofs

    The live-cell container [cells_m] of the C++ class [Organism] is a
    [std::unordered_set<uint64_t>]; it is modelled as a [gset Z] whose members
    are 64-bit keys.  Fixed-width integers are mathematical integers with the
    two's-complement reduction written at every conversion. *)

From stdpp Require Import gmap list sorting.
From Stdlib Require Import ZArith Lia.

Local Open Scope Z_scope.

(** ** Fixed-width integers *)

Module Int.

(** Conversion to [int32_t] ([cell_coord_type]): the low 32 bits, read as a
    signed number. *)
Definition i32 (z : Z) : Z := (z + 2 ^ 31) mod 2 ^ 32 - 2 ^ 31.

(** Conversion to [int64_t] ([cell_signed_whole_type]). *)
Definition i64 (z : Z) : Z := (z + 2 ^ 63) mod 2 ^ 64 - 2 ^ 63.

(** Conversion to [uint64_t] ([cell_whole_type]). *)
Definition u64 (z : Z) : Z := z mod 2 ^ 64.

Definition is_i32 (z : Z) : Prop := - 2 ^ 31 <= z < 2 ^ 31.
Definition is_u64 (z : Z) : Prop := 0 <= z < 2 ^ 64.

Definition INT32_MAX : Z := 2 ^ 31 - 1.
Definition INT32_MIN : Z := - 2 ^ 31.

End Int.
Import Int.

(** ** The coordinate encoding: macros [XX], [YY], [WW] *)

(** [#define XX(w) ((cell_coord_type)(w))] *)
Definition XX (w : Z) : Z := i32 w.

(** [#define YY(w) ((cell_coord_type)(((w) >> 32) & 0xFFFFFFFF))] *)
Definition YY (w : Z) : Z := i32 (Z.land (Z.shiftr w 32) 0xFFFFFFFF).

(** [#define WW(x, y) (((cell_signed_whole_type)(y) << 32)
                       | ((cell_signed_whole_type)(x) & 0xFFFFFFFF))]
    The value of the macro is an [int64_t]. *)
Definition WW (x y : Z) : Z :=
  Z.lor (i64 (Z.shiftl y 32)) (Z.land x 0xFFFFFFFF).

(** Every use of [WW] in the class passes the value where a [cell_whole_type]
    is expected ([is_alive], [is_dead], [insert], a store into [z[]]), which
    converts it to [uint64_t]. *)
Definition key (x y : Z) : Z := u64 (WW x y).

(** [struct Cell] with its two constructors. *)
Record Cell : Type := mkCell { cell_x : Z; cell_y : Z }.

(** [Cell(cell_whole_type w) : x(XX(w)), y(YY(w))] *)
Definition Cell_of_whole (w : Z) : Cell := mkCell (XX w) (YY w).

Global Instance Cell_eq_dec : EqDecision Cell.
Proof. solve_decision. Defined.

(** [operator<(const Cell&, const Cell&)] *)
Definition cell_ltb (lhs rhs : Cell) : bool :=
  if cell_x lhs <? cell_x rhs then true
  else if cell_x lhs >? cell_x rhs then false
  else cell_y lhs <? cell_y rhs.

(** ** class [Organism]

    The only data member is [cells_m].  A [size_t] is modelled as [nat]: the
    values computed here are truth values, neighbour counts (at most 8) and
    element counts of containers held in memory, none of which can reach
    [2^64]. *)

(** [using cell_list_type = std::vector<Cell>] *)
Abbreviation cell_list_type := (list Cell).

(** [size_t count() const] *)
Definition count (cells_m : gset Z) : nat := size cells_m.

(** [size_t is_alive(cell_whole_type w) const] *)
Definition is_alive (cells_m : gset Z) (w : Z) : nat :=
  if decide (w ∈ cells_m) then 1%nat else 0%nat.

(** [size_t is_dead(cell_whole_type w) const] *)
Definition is_dead (cells_m : gset Z) (w : Z) : nat :=
  if decide (w ∈ cells_m) then 0%nat else 1%nat.

(** A [size_t] used as the condition of an [if]. *)
Definition truthy (n : nat) : bool := negb (n =? 0)%nat.

(** [cells_m.insert(w)]: the new set and the [.second] of the returned pair,
    true when the element was not there before. *)
Definition set_insert (cells_m : gset Z) (w : Z) : gset Z * bool :=
  ({[w]} ∪ cells_m, bool_decide (w ∉ cells_m)).

(** [size_t insert_cells(const cell_list_type& cells)]: the loop carries
    [(cells_m, n_inserted)]. *)
Definition insert_cells (cells_m : gset Z) (cells : cell_list_type)
  : gset Z * nat :=
  foldl (λ '(m, n_inserted) c,
           let '(m', second) := set_insert m (key (cell_x c) (cell_y c)) in
           (m', if second then S n_inserted else n_inserted))
        (cells_m, 0%nat) cells.

(** [std::sort(first, last)] with [operator<]: insertion into a sorted prefix.
    The order on cells is total, so every sorting algorithm returns this same
    sequence (see [sort_cells_unique]). *)
Fixpoint insert_sorted (c : Cell) (l : list Cell) : list Cell :=
  match l with
  | [] => [c]
  | d :: l' => if cell_ltb d c then d :: insert_sorted c l' else c :: l
  end.

Definition sort_cells (l : list Cell) : list Cell :=
  foldr insert_sorted [] l.

(** [cell_list_type get_live_cells() const]: the vector is built from the
    range [cells_m.cbegin() .. cells_m.cend()], an enumeration [order] of the
    set, each key converted by [Cell(cell_whole_type)]. *)
Definition get_live_cells_from (order : list Z) : cell_list_type :=
  sort_cells (Cell_of_whole <$> order).

Definition get_live_cells (cells_m : gset Z) : cell_list_type :=
  get_live_cells_from (elements cells_m).

(** [size_t get_num_live(cell_coord_type x, cell_coord_type y) const].
    [x-1], [x+1], [y-1], [y+1] are [int] operations on 32-bit values and are
    reduced to 32 bits.  At the two ends of the range the reduction is the
    only thing that reaches the key: [WW] keeps the low 32 bits of each
    argument, whether the sum was formed in 32 or in 64 bits. *)
Definition get_num_live (cells_m : gset Z) (x y : Z) : nat :=
  (is_alive cells_m (key (i32 (x - 1)) (i32 (y - 1)))
   + is_alive cells_m (key (i32 (x - 1)) y)
   + is_alive cells_m (key (i32 (x - 1)) (i32 (y + 1)))
   + is_alive cells_m (key x (i32 (y - 1)))
   + is_alive cells_m (key x (i32 (y + 1)))
   + is_alive cells_m (key (i32 (x + 1)) (i32 (y - 1)))
   + is_alive cells_m (key (i32 (x + 1)) y)
   + is_alive cells_m (key (i32 (x + 1)) (i32 (y + 1))))%nat.

(** *** The caller-supplied buffer

    [get_dead_cells] writes through a [cell_whole_type*]; [tick] passes the
    local array [zcells[8]].  The array is a list of its 8 slots; an access
    outside it has no defined result and is [None]. *)
Definition store (z : list Z) (n : nat) (w : Z) : option (list Z) :=
  if decide (n < length z)%nat then Some (<[n := w]> z) else None.

Definition load (z : list Z) (i : nat) : option Z := z !! i.

(** One statement [if (is_dead(w)) z[n++] = w;] on the state [(z, n)]. *)
Definition dead_step (cells_m : gset Z) (st : list Z * nat) (w : Z)
  : option (list Z * nat) :=
  if truthy (is_dead cells_m w)
  then z' ← store st.1 st.2 w; Some (z', S st.2)
  else Some st.

(** [size_t get_dead_cells(cell_coord_type x, cell_coord_type y,
                           cell_whole_type* z) const]: returns the buffer
    after the writes together with [n]. *)
Definition get_dead_cells (cells_m : gset Z) (x y : Z) (z : list Z)
  : option (list Z * nat) :=
  st ← dead_step cells_m (z, 0%nat) (key (i32 (x - 1)) (i32 (y - 1)));
  st ← dead_step cells_m st (key (i32 (x - 1)) y);
  st ← dead_step cells_m st (key (i32 (x - 1)) (i32 (y + 1)));
  st ← dead_step cells_m st (key x (i32 (y - 1)));
  st ← dead_step cells_m st (key x (i32 (y + 1)));
  st ← dead_step cells_m st (key (i32 (x + 1)) (i32 (y - 1)));
  st ← dead_step cells_m st (key (i32 (x + 1)) y);
  st ← dead_step cells_m st (key (i32 (x + 1)) (i32 (y + 1)));
  Some st.

(** A left fold whose body may fail. *)
Fixpoint foldlM {A B : Type} (f : B → A → option B) (b : B) (l : list A)
  : option B :=
  match l with
  | [] => Some b
  | a :: l' => b' ← f b a; foldlM f b' l'
  end.

(** [for (size_t i = 0; i < ndead; ++i)
       if (get_num_live(XX(zcells[i]), YY(zcells[i])) == 3)
          new_cells.insert(zcells[i]);] *)
Definition birth_step (cells_m : gset Z) (zcells : list Z)
    (new_cells : gset Z) (i : nat) : option (gset Z) :=
  d ← load zcells i;
  Some (if (get_num_live cells_m (XX d) (YY d) =? 3)%nat
        then {[d]} ∪ new_cells else new_cells).

Definition birth_loop (cells_m : gset Z) (zcells : list Z) (ndead : nat)
    (new_cells : gset Z) : option (gset Z) :=
  foldlM (birth_step cells_m zcells) new_cells (seq 0 ndead).

(** The body of [for (const auto& c : cells_m)] on the state
    [(new_cells, zcells)]. *)
Definition tick_body (cells_m : gset Z) (st : gset Z * list Z) (c : Z)
  : option (gset Z * list Z) :=
  '(zcells, ndead) ← get_dead_cells cells_m (XX c) (YY c) st.2;
  let new_cells :=
    if (ndead =? 5)%nat || (ndead =? 6)%nat then {[c]} ∪ st.1 else st.1 in
  new_cells' ← birth_loop cells_m zcells ndead new_cells;
  Some (new_cells', zcells).

(** [void tick()].  [order] is the sequence in which the range-for visits
    [cells_m] and [zcells0] the indeterminate initial content of
    [zcells[8]]; the result is the new value of [cells_m].  ([reserve] only
    sizes the hash table.) *)
Definition tick_from (order : list Z) (zcells0 : list Z) (cells_m : gset Z)
  : option (gset Z) :=
  fst <$> foldlM (tick_body cells_m) (∅, zcells0) order.

Definition tick (cells_m : gset Z) : option (gset Z) :=
  tick_from (elements cells_m) (replicate 8 0) cells_m.

(** ** Neighbourhoods

    The eight keys that [get_num_live] and [get_dead_cells] probe, in the
    order of the source. *)
Definition neighbours (x y : Z) : list Z :=
  [ key (i32 (x - 1)) (i32 (y - 1)); key (i32 (x - 1)) y;
    key (i32 (x - 1)) (i32 (y + 1)); key x (i32 (y - 1));
    key x (i32 (y + 1)); key (i32 (x + 1)) (i32 (y - 1));
    key (i32 (x + 1)) y; key (i32 (x + 1)) (i32 (y + 1)) ].

(** The dead ones among them: what [get_dead_cells] leaves in [z[0..n)]. *)
Definition dead_list (cells_m : gset Z) (x y : Z) : list Z :=
  filter (λ w, w ∉ cells_m) (neighbours x y).

(** Live-neighbour count of the cell with key [c]. *)
Definition nlive (cells_m : gset Z) (c : Z) : nat :=
  get_num_live cells_m (XX c) (YY c).

(** Dead neighbours of [c] that have exactly three live neighbours. *)
Definition births (cells_m : gset Z) (l : list Z) : gset Z :=
  list_to_set (filter (λ d, nlive cells_m d = 3%nat) l).

(** What one iteration of the loop of [tick] adds to [new_cells]. *)
Definition cell_out (cells_m : gset Z) (c : Z) : gset Z :=
  let ndead := length (dead_list cells_m (XX c) (YY c)) in
  births cells_m (dead_list cells_m (XX c) (YY c))
  ∪ (if (ndead =? 5)%nat || (ndead =? 6)%nat then {[c]} else ∅).

(** The next generation as a set: the union of the contributions. *)
Definition next_generation (order : list Z) (cells_m : gset Z) : gset Z :=
  ⋃ (cell_out cells_m <$> order).

(** The offsets of the Moore neighbourhood, in scan order. *)
Definition offsets : list (Z * Z) :=
  [(-1, -1); (-1, 0); (-1, 1); (0, -1); (0, 1); (1, -1); (1, 0); (1, 1)].

(** ** Reference definitions used by the statements *)

(** The survival test as the rule words it: [c] is kept when its
    live-neighbour count is 2 or 3.  Everything else is the loop body of
    [tick]. *)
Definition tick_body_live (cells_m : gset Z) (st : gset Z * list Z) (c : Z)
  : option (gset Z * list Z) :=
  '(zcells, ndead) ← get_dead_cells cells_m (XX c) (YY c) st.2;
  let n := get_num_live cells_m (XX c) (YY c) in
  let new_cells :=
    if (n =? 2)%nat || (n =? 3)%nat then {[c]} ∪ st.1 else st.1 in
  new_cells' ← birth_loop cells_m zcells ndead new_cells;
  Some (new_cells', zcells).

Definition tick_live_from (order : list Z) (zcells0 : list Z)
    (cells_m : gset Z) : option (gset Z) :=
  fst <$> foldlM (tick_body_live cells_m) (∅, zcells0) order.

(** Chebyshev distance between the cells of two keys, on the integer
    lattice. *)
Definition chebyshev (c d : Z) : Z :=
  Z.max (Z.abs (XX c - XX d)) (Z.abs (YY c - YY d)).

(** Distance at most 1 when each coordinate is stepped with 32-bit
    wrap-around, as [x-1] and [x+1] are computed. *)
Definition wrap_adjacent (c d : Z) : Prop :=
  ∃ dx dy, -1 <= dx <= 1 ∧ -1 <= dy <= 1
           ∧ XX c = i32 (XX d + dx) ∧ YY c = i32 (YY d + dy).

(** Neither coordinate of the cell is an end of the [int32_t] range. *)
Definition interior (c : Z) : Prop :=
  INT32_MIN < XX c < INT32_MAX ∧ INT32_MIN < YY c < INT32_MAX.

(** Every member of [new_cells] is within Chebyshev distance 1 of a member
    of [cells_m]. *)
Definition near_prior (cells_m new_cells : gset Z) : Prop :=
  ∀ c, c ∈ new_cells → ∃ c', c' ∈ cells_m ∧ chebyshev c c' <= 1.

(** The state invariant of the container type: members are 64-bit keys. *)
Definition wf (cells_m : gset Z) : Prop := ∀ w, w ∈ cells_m → is_u64 w.

(** The blinker in its horizontal and its vertical phase. *)
Definition blinker_h : cell_list_type :=
  [mkCell 0 0; mkCell 1 0; mkCell 2 0].

Definition blinker_v : cell_list_type :=
  [mkCell 1 (-1); mkCell 1 0; mkCell 1 1].

(** A vertical blinker on the last column of the coordinate range. *)
Definition edge_blinker : cell_list_type :=
  [mkCell INT32_MAX (-1); mkCell INT32_MAX 0; mkCell INT32_MAX 1].

(** Seeding an empty organism. *)
Definition seed (cells : cell_list_type) : gset Z := (insert_cells ∅ cells).1.

(** The keys of a coordinate list, and the coordinates a [Cell] can hold. *)
Definition cell_key (c : Cell) : Z := key (cell_x c) (cell_y c).

Definition cell_in_range (c : Cell) : Prop :=
  is_i32 (cell_x c) ∧ is_i32 (cell_y c).

(** What [std::sort] guarantees of its output: no element is less (by
    [operator<]) than an earlier one. *)
Definition cell_le (a b : Cell) : Prop := cell_ltb b a = false.

(** Lexicographic order by [x], then [y]. *)
Definition lex_lt (a b : Cell) : Prop :=
  cell_x a < cell_x b ∨ (cell_x a = cell_x b ∧ cell_y a < cell_y b).

(** ** Further definitions: the remaining operators, the driver's check,
    translations and patterns *)

(** The other comparison operators of [Cell], as the source derives them
    from [operator<]. *)

(** [operator>(lhs, rhs) { return rhs < lhs; }] *)
Definition cell_gtb (lhs rhs : Cell) : bool := cell_ltb rhs lhs.

(** [operator<=(lhs, rhs) { return !(lhs > rhs); }] *)
Definition cell_leb (lhs rhs : Cell) : bool := negb (cell_gtb lhs rhs).

(** [operator>=(lhs, rhs) { return !(lhs < rhs); }] *)
Definition cell_geb (lhs rhs : Cell) : bool := negb (cell_ltb lhs rhs).

(** [operator==(lhs, rhs) { return lhs.x == rhs.x && lhs.y == rhs.y; }] *)
Definition cell_eqb (lhs rhs : Cell) : bool :=
  (cell_x lhs =? cell_x rhs) && (cell_y lhs =? cell_y rhs).

(** [operator!=(lhs, rhs) { return !(lhs == rhs); }] *)
Definition cell_neb (lhs rhs : Cell) : bool := negb (cell_eqb lhs rhs).

(** The start of [RunTest] (tbench1.cpp): a fresh organism is seeded with the
    cells read from the file and [count()] is compared with [cells.size()];
    [true] is the branch that reports a cell count mismatch. *)
Definition count_mismatch (cells : cell_list_type) : bool :=
  negb (count (insert_cells ∅ cells).1 =? length cells)%nat.

(** Moving a cell by [(a, b)]: the key of [(x + a, y + b)], and a whole
    population moved the same way. *)
Definition shift (a b : Z) (w : Z) : Z := key (XX w + a) (YY w + b).

Definition translate (a b : Z) (cells_m : gset Z) : gset Z :=
  set_map (shift a b) cells_m.

(** The 2x2 block with lower corner [(x, y)], and the horizontal and
    vertical blinker centred on [(x, y)]. *)
Definition block_at (x y : Z) : cell_list_type :=
  [mkCell x y; mkCell (x + 1) y; mkCell x (y + 1); mkCell (x + 1) (y + 1)].

Definition blinker_h_at (x y : Z) : cell_list_type :=
  [mkCell (x - 1) y; mkCell x y; mkCell (x + 1) y].

Definition blinker_v_at (x y : Z) : cell_list_type :=
  [mkCell x (y - 1); mkCell x y; mkCell x (y + 1)].

(** ** Arithmetic reading of the encoding *)

Section encoding.

Lemma i32_id z : is_i32 z → i32 z = z.
Proof. unfold is_i32, i32. intros H. rewrite Z.mod_small; lia. Qed.

Lemma i32_range z : is_i32 (i32 z).
Proof.
  unfold is_i32, i32.
  pose proof (Z.mod_pos_bound (z + 2 ^ 31) (2 ^ 32)). lia.
Qed.

Lemma i32_mod z : i32 z mod 2 ^ 32 = z mod 2 ^ 32.
Proof.
  unfold i32.
  pose proof (Z.div_mod (z + 2 ^ 31) (2 ^ 32)) as Hd.
  replace ((z + 2 ^ 31) mod 2 ^ 32 - 2 ^ 31)
    with (z + - ((z + 2 ^ 31) / 2 ^ 32) * 2 ^ 32) by lia.
  apply Z_mod_plus_full.
Qed.

Lemma i32_of_mod z : i32 (z mod 2 ^ 32) = i32 z.
Proof. unfold i32. by rewrite Zplus_mod_idemp_l. Qed.

Lemma i32_congr a b : a mod 2 ^ 32 = b mod 2 ^ 32 → i32 a = i32 b.
Proof. intros H. by rewrite <- (i32_of_mod a), H, i32_of_mod. Qed.

Lemma i32_i32 z : i32 (i32 z) = i32 z.
Proof. apply i32_id, i32_range. Qed.

Lemma i32_add_i32 z d : i32 (i32 z + d) = i32 (z + d).
Proof.
  apply i32_congr.
  by rewrite <- Zplus_mod_idemp_l, i32_mod, Zplus_mod_idemp_l.
Qed.

Lemma mask32 z : Z.land z 0xFFFFFFFF = z mod 2 ^ 32.
Proof. change 0xFFFFFFFF with (Z.ones 32). by rewrite Z.land_ones. Qed.

(** The high half and the low half of [WW] occupy disjoint bits, so the
    bitwise or is a sum. *)
Lemma WW_arith x y :
  WW x y = i32 y * 2 ^ 32 + x mod 2 ^ 32.
Proof.
  unfold WW. rewrite mask32, Z.shiftl_mul_pow2 by lia.
  assert (Hhi : i64 (y * 2 ^ 32) = i32 y * 2 ^ 32).
  { unfold i64, i32.
    replace (y * 2 ^ 32 + 2 ^ 63) with ((y + 2 ^ 31) * 2 ^ 32) by lia.
    change (2 ^ 64) with (2 ^ 32 * 2 ^ 32).
    rewrite Zmult_mod_distr_r. lia. }
  rewrite Hhi, <- Z.add_nocarry_lor; [done|].
  rewrite <- Z.shiftl_mul_pow2 by lia.
  apply Z.bits_inj'. intros n Hn.
  rewrite Z.land_spec, Z.bits_0.
  destruct (decide (n < 32)) as [Hlt|Hge].
  - by rewrite Z.shiftl_spec_low.
  - rewrite (Z.mod_pow2_bits_high x 32 n) by lia.
    by rewrite andb_false_r.
Qed.

Lemma key_arith x y :
  key x y = (y mod 2 ^ 32) * 2 ^ 32 + x mod 2 ^ 32.
Proof.
  unfold key, u64. rewrite WW_arith.
  pose proof (Z.mod_pos_bound x (2 ^ 32)).
  pose proof (Z.mod_pos_bound y (2 ^ 32)).
  change (2 ^ 64) with (2 ^ 32 * 2 ^ 32).
  rewrite <- (i32_mod y).
  generalize (i32 y). intros v.
  rewrite (Z.div_mod v (2 ^ 32)) at 1 by lia.
  replace ((2 ^ 32 * (v / 2 ^ 32) + v mod 2 ^ 32) * 2 ^ 32 + x mod 2 ^ 32)
    with ((v mod 2 ^ 32 * 2 ^ 32 + x mod 2 ^ 32)
          + (v / 2 ^ 32) * (2 ^ 32 * 2 ^ 32)) by lia.
  rewrite Z_mod_plus_full.
  pose proof (Z.mod_pos_bound v (2 ^ 32)).
  apply Z.mod_small. nia.
Qed.

Lemma key_is_u64 x y : is_u64 (key x y).
Proof. unfold is_u64, key, u64. apply Z.mod_pos_bound. lia. Qed.

Lemma XX_arith w : XX w = i32 w.
Proof. done. Qed.

Lemma YY_arith w : YY w = i32 (w / 2 ^ 32).
Proof.
  unfold YY. rewrite mask32, Z.shiftr_div_pow2 by lia. apply i32_of_mod.
Qed.

Lemma XX_key x y : XX (key x y) = i32 x.
Proof.
  rewrite XX_arith, key_arith. apply i32_congr.
  rewrite Z.add_comm, Z_mod_plus_full. apply Z.mod_mod. lia.
Qed.

Lemma YY_key x y : YY (key x y) = i32 y.
Proof.
  rewrite YY_arith, key_arith.
  pose proof (Z.mod_pos_bound x (2 ^ 32)).
  rewrite Z.add_comm, Z_div_plus_full, Z.div_small, Z.add_0_l by lia.
  apply i32_of_mod.
Qed.

(** The raw [int64_t] value of [WW] decodes like the converted key. *)
Lemma XX_WW x y : XX (WW x y) = i32 x.
Proof.
  rewrite XX_arith, WW_arith. apply i32_congr.
  rewrite Z.add_comm, Z_mod_plus_full. apply Z.mod_mod. lia.
Qed.

Lemma YY_WW x y : YY (WW x y) = i32 y.
Proof.
  rewrite YY_arith, WW_arith.
  pose proof (Z.mod_pos_bound x (2 ^ 32)).
  rewrite Z.add_comm, Z_div_plus_full, Z.div_small, Z.add_0_l by lia.
  apply i32_i32.
Qed.

(** Re-encoding the decoded halves of a 64-bit key gives the key back. *)
Lemma key_XX_YY w : is_u64 w → key (XX w) (YY w) = w.
Proof.
  unfold is_u64. intros Hw.
  rewrite key_arith, XX_arith, YY_arith, !i32_mod.
  rewrite (Z.mod_small (w / 2 ^ 32)).
  - rewrite (Z.div_mod w (2 ^ 32)) at 3 by lia. lia.
  - split; [apply Z.div_pos; lia|].
    apply Z.div_lt_upper_bound; lia.
Qed.

(** [key] only looks at its arguments modulo [2^32]. *)
Lemma key_i32 x y : key (i32 x) (i32 y) = key x y.
Proof. by rewrite !key_arith, !i32_mod. Qed.

Lemma key_i32_l x y : key (i32 x) y = key x y.
Proof. by rewrite !key_arith, !i32_mod. Qed.

Lemma key_i32_r x y : key x (i32 y) = key x y.
Proof. by rewrite !key_arith, !i32_mod. Qed.

Lemma key_inj x y x' y' :
  key x y = key x' y' → i32 x = i32 x' ∧ i32 y = i32 y'.
Proof.
  intros H. split.
  - by rewrite <- (XX_key x y), H, XX_key.
  - by rewrite <- (YY_key x y), H, YY_key.
Qed.

End encoding.

(** ** The buffer discipline of [get_dead_cells] *)

Section buffer.
Context (cells_m : gset Z).

Lemma foldlM_app {A B} (f : B → A → option B) b l1 l2 :
  foldlM f b (l1 ++ l2) = foldlM f b l1 ≫= λ b', foldlM f b' l2.
Proof.
  revert b. induction l1 as [|a l1 IH]; intros b; simpl; [done|].
  destruct (f b a); simpl; auto.
Qed.

Lemma get_dead_cells_fold x y z :
  get_dead_cells cells_m x y z
  = foldlM (dead_step cells_m) (z, 0%nat) (neighbours x y).
Proof. reflexivity. Qed.

Lemma dead_step_dead z n w :
  w ∉ cells_m → dead_step cells_m (z, n) w = z' ← store z n w; Some (z', S n).
Proof. intros H. unfold dead_step, is_dead. by rewrite decide_False. Qed.

Lemma dead_step_alive z n w :
  w ∈ cells_m → dead_step cells_m (z, n) w = Some (z, n).
Proof. intros H. unfold dead_step, is_dead. by rewrite decide_True. Qed.

(** The counter advances once per dead key, whatever the buffer. *)
Lemma dead_fold_count l z n z' n' :
  foldlM (dead_step cells_m) (z, n) l = Some (z', n') →
  n' = (n + length (filter (λ w, w ∉ cells_m) l))%nat.
Proof.
  revert z n. induction l as [|w l IH]; intros z n; simpl.
  - intros [= <- <-]. lia.
  - destruct (decide (w ∈ cells_m)) as [Hw|Hw].
    + rewrite dead_step_alive, filter_cons_False by tauto. simpl. apply IH.
    + rewrite dead_step_dead, filter_cons_True by done.
      destruct (store z n w) as [z1|]; simpl; [|done].
      intros H%IH. simpl. lia.
Qed.

(** With room for every remaining key, all writes succeed, the buffer keeps
    its length, and [z[0..n)] is extended by the dead keys in scan order. *)
Lemma dead_fold_ok l z n :
  (n + length l ≤ length z)%nat →
  ∃ z', foldlM (dead_step cells_m) (z, n) l
        = Some (z', (n + length (filter (λ w, w ∉ cells_m) l))%nat)
      ∧ length z' = length z
      ∧ take (n + length (filter (λ w, w ∉ cells_m) l)) z'
        = take n z ++ filter (λ w, w ∉ cells_m) l.
Proof.
  revert z n. induction l as [|w l IH]; intros z n Hn; simpl in *.
  - exists z. rewrite Nat.add_0_r, app_nil_r. done.
  - destruct (decide (w ∈ cells_m)) as [Hw|Hw].
    + rewrite dead_step_alive, filter_cons_False by tauto. simpl.
      apply IH. lia.
    + rewrite dead_step_dead, filter_cons_True by done.
      unfold store. rewrite decide_True by lia. simpl.
      destruct (IH (<[n:=w]> z) (S n)) as (z' & Hrun & Hlen & Htake).
      { rewrite length_insert. lia. }
      exists z'. rewrite length_insert in Hlen.
      replace (n + S (length (filter (λ w, w ∉ cells_m) l)))%nat
        with (S n + length (filter (λ w, w ∉ cells_m) l))%nat by lia.
      split_and!; [done..|].
      rewrite Htake.
      rewrite (take_S_r _ _ w) by (apply list_lookup_insert_eq; lia).
      rewrite take_insert_ge by lia. by rewrite <- app_assoc.
Qed.

Lemma length_neighbours x y : length (neighbours x y) = 8%nat.
Proof. done. Qed.

Lemma length_dead_list x y : (length (dead_list cells_m x y) ≤ 8)%nat.
Proof.
  unfold dead_list. rewrite <- (length_neighbours x y). apply length_filter.
Qed.

Lemma get_dead_cells_ok x y z :
  (8 ≤ length z)%nat →
  ∃ z', get_dead_cells cells_m x y z
        = Some (z', length (dead_list cells_m x y))
      ∧ length z' = length z
      ∧ take (length (dead_list cells_m x y)) z' = dead_list cells_m x y.
Proof.
  intros Hz. rewrite get_dead_cells_fold.
  destruct (dead_fold_ok (neighbours x y) z 0) as (z' & Hrun & Hlen & Htake).
  { rewrite length_neighbours. lia. }
  exists z'. done.
Qed.

Lemma get_dead_cells_count x y z z' n :
  get_dead_cells cells_m x y z = Some (z', n) →
  n = length (dead_list cells_m x y).
Proof. rewrite get_dead_cells_fold. intros H%dead_fold_count. done. Qed.

(** Every probed key is counted by exactly one of the two functions. *)
Lemma live_plus_dead x y :
  (get_num_live cells_m x y + length (dead_list cells_m x y) = 8)%nat.
Proof.
  unfold get_num_live, dead_list, neighbours, is_alive.
  rewrite !filter_cons, filter_nil.
  repeat match goal with
         | |- context [decide (?w ∈ cells_m)] =>
             destruct (decide (w ∈ cells_m));
             [ rewrite (decide_False (P := w ∉ cells_m)) by tauto
             | rewrite (decide_True (P := w ∉ cells_m)) by done ]
         end; reflexivity.
Qed.

End buffer.

(** ** One generation *)

Section generation.
Context (cells_m : gset Z).

Lemma birth_step_ok zcells new_cells i d :
  zcells !! i = Some d →
  birth_step cells_m zcells new_cells i
  = Some (births cells_m [d] ∪ new_cells).
Proof.
  intros Hd. unfold birth_step, load, births. rewrite Hd. simpl.
  fold (nlive cells_m d). f_equal.
  rewrite filter_cons, filter_nil.
  destruct (Nat.eqb_spec (nlive cells_m d) 3) as [He|He].
  - rewrite decide_True by done. set_solver.
  - rewrite decide_False by done. set_solver.
Qed.

Lemma births_app l1 l2 :
  births cells_m (l1 ++ l2) = births cells_m l1 ∪ births cells_m l2.
Proof. unfold births. by rewrite filter_app, list_to_set_app_L. Qed.

(** The inner loop reads [zcells[0..ndead)] only. *)
Lemma birth_loop_ok zcells ndead new_cells :
  (ndead ≤ length zcells)%nat →
  birth_loop cells_m zcells ndead new_cells
  = Some (births cells_m (take ndead zcells) ∪ new_cells).
Proof.
  unfold birth_loop. induction ndead as [|k IH]; intros Hk.
  - simpl. f_equal. unfold births. set_solver.
  - rewrite seq_S, foldlM_app, IH by lia. simpl.
    destruct (lookup_lt_is_Some_2 zcells k) as [d Hd]; [lia|].
    rewrite (birth_step_ok _ _ _ d Hd). simpl. f_equal.
    rewrite (take_S_r _ _ d Hd), births_app. set_solver.
Qed.

Lemma tick_body_ok new_cells zcells c :
  (8 ≤ length zcells)%nat →
  ∃ zcells', tick_body cells_m (new_cells, zcells) c
             = Some (cell_out cells_m c ∪ new_cells, zcells')
           ∧ length zcells' = length zcells.
Proof.
  intros Hz. unfold tick_body. simpl.
  destruct (get_dead_cells_ok cells_m (XX c) (YY c) zcells Hz)
    as (z' & -> & Hlen & Htake).
  exists z'. split; [|done]. simpl.
  pose proof (length_dead_list cells_m (XX c) (YY c)).
  rewrite birth_loop_ok, Htake by lia. simpl. f_equal. f_equal.
  unfold cell_out.
  destruct (_ || _); set_solver.
Qed.

Lemma tick_loop_ok order new_cells zcells :
  (8 ≤ length zcells)%nat →
  ∃ zcells', foldlM (tick_body cells_m) (new_cells, zcells) order
             = Some (next_generation order cells_m ∪ new_cells, zcells')
           ∧ length zcells' = length zcells.
Proof.
  revert new_cells zcells.
  induction order as [|c order IH]; intros new_cells zcells Hz.
  - exists zcells. split; [|done]. simpl. f_equal. f_equal.
    unfold next_generation. set_solver.
  - simpl.
    destruct (tick_body_ok new_cells zcells c Hz) as (z1 & -> & Hlen1).
    simpl.
    destruct (IH (cell_out cells_m c ∪ new_cells) z1) as (z2 & -> & Hlen2);
      [lia|].
    exists z2. split; [|lia]. f_equal. f_equal.
    unfold next_generation. simpl. set_solver.
Qed.

(** [tick] never fails on an array of (at least) 8 slots and installs the
    union of the per-cell contributions. *)
Lemma tick_from_ok order zcells0 :
  (8 ≤ length zcells0)%nat →
  tick_from order zcells0 cells_m = Some (next_generation order cells_m).
Proof.
  intros Hz. unfold tick_from.
  destruct (tick_loop_ok order ∅ zcells0 Hz) as (z' & -> & _).
  simpl. f_equal. set_solver.
Qed.

Lemma elem_of_next_generation order w :
  w ∈ next_generation order cells_m
  ↔ ∃ c, c ∈ order ∧ w ∈ cell_out cells_m c.
Proof.
  unfold next_generation. rewrite elem_of_union_list. split.
  - intros (X & [c [-> Hc]]%list_elem_of_fmap & Hw). eauto.
  - intros (c & Hc & Hw). exists (cell_out cells_m c). split; [|done].
    apply list_elem_of_fmap. eauto.
Qed.

(** Only the set of visited cells matters, not their order or multiplicity. *)
Lemma next_generation_order order1 order2 :
  (∀ c, c ∈ order1 ↔ c ∈ order2) →
  next_generation order1 cells_m = next_generation order2 cells_m.
Proof.
  intros H. apply set_eq. intros w.
  rewrite !elem_of_next_generation. naive_solver.
Qed.

End generation.

(** ** The neighbour relation *)

Section neighbourhood.

Lemma key_congr a b a' b' :
  i32 a = i32 a' → i32 b = i32 b' → key a b = key a' b'.
Proof. intros Ha Hb. by rewrite <- (key_i32 a b), Ha, Hb, key_i32. Qed.

Lemma neighbours_offsets x y :
  neighbours x y = (λ p, key (x + p.1) (y + p.2)) <$> offsets.
Proof.
  unfold neighbours, offsets. simpl.
  rewrite !key_i32, !key_i32_l, !key_i32_r, !Z.add_0_r. reflexivity.
Qed.

Lemma elem_of_neighbours x y w :
  w ∈ neighbours x y
  ↔ ∃ p, p ∈ offsets ∧ w = key (x + p.1) (y + p.2).
Proof.
  rewrite neighbours_offsets, list_elem_of_fmap. naive_solver.
Qed.

Lemma offsets_opp p : p ∈ offsets → (- p.1, - p.2) ∈ offsets.
Proof.
  revert p. apply Forall_forall.
  unfold offsets. repeat constructor; simpl; set_solver.
Qed.

Lemma offsets_small p :
  p ∈ offsets → (-1 <= p.1 <= 1) ∧ (-1 <= p.2 <= 1) ∧ p ≠ (0, 0).
Proof.
  revert p. apply Forall_forall.
  unfold offsets. repeat constructor; simpl; (lia || done).
Qed.

Lemma neighbours_u64 x y w : w ∈ neighbours x y → is_u64 w.
Proof.
  intros (p & _ & ->)%elem_of_neighbours. apply key_is_u64.
Qed.

(** Being a neighbour is symmetric (coordinates wrap at 32 bits). *)
Lemma neighbours_sym c d :
  is_u64 c →
  d ∈ neighbours (XX c) (YY c) → c ∈ neighbours (XX d) (YY d).
Proof.
  intros Hc (p & Hp & ->)%elem_of_neighbours.
  apply elem_of_neighbours. exists (- p.1, - p.2).
  split; [by apply offsets_opp|]. simpl.
  rewrite XX_key, YY_key.
  rewrite <- (key_XX_YY c Hc) at 1.
  apply key_congr; rewrite i32_add_i32; f_equal; lia.
Qed.

Lemma get_num_live_filter cells_m x y :
  get_num_live cells_m x y
  = length (filter (λ w, w ∈ cells_m) (neighbours x y)).
Proof.
  unfold get_num_live, neighbours, is_alive.
  rewrite !filter_cons, filter_nil.
  repeat match goal with
         | |- context [decide (?w ∈ cells_m)] =>
             destruct (decide (w ∈ cells_m))
         end; reflexivity.
Qed.

(** [get_num_live] counts the live cells among the eight Moore neighbours
    [(x + dx, y + dy)]. *)
Lemma get_num_live_moore cells_m x y :
  get_num_live cells_m x y
  = length (filter (λ p, key (x + p.1) (y + p.2) ∈ cells_m) offsets).
Proof.
  rewrite get_num_live_filter, neighbours_offsets.
  induction offsets as [|p l IH]; [done|].
  rewrite fmap_cons, !filter_cons.
  destruct (decide (key (x + p.1) (y + p.2) ∈ cells_m)); simpl; by rewrite IH.
Qed.

Lemma get_num_live_pos cells_m x y :
  get_num_live cells_m x y ≠ 0%nat →
  ∃ k, k ∈ neighbours x y ∧ k ∈ cells_m.
Proof.
  rewrite get_num_live_filter.
  destruct (filter _ _) as [|k l] eqn:Hf; [done|]. intros _.
  assert (Hk : k ∈ filter (λ w, w ∈ cells_m) (neighbours x y))
    by (rewrite Hf; left).
  apply list_elem_of_filter in Hk. naive_solver.
Qed.

End neighbourhood.

(** ** The rule of Life *)

Section rule.
Context (cells_m : gset Z).

Lemma elem_of_births l w :
  w ∈ births cells_m l ↔ w ∈ l ∧ nlive cells_m w = 3%nat.
Proof.
  unfold births. rewrite elem_of_list_to_set, list_elem_of_filter. tauto.
Qed.

Lemma elem_of_dead_list x y w :
  w ∈ dead_list cells_m x y ↔ w ∈ neighbours x y ∧ w ∉ cells_m.
Proof. unfold dead_list. rewrite list_elem_of_filter. tauto. Qed.

Lemma survive_test c :
  let ndead := length (dead_list cells_m (XX c) (YY c)) in
  (ndead =? 5)%nat || (ndead =? 6)%nat
  = (nlive cells_m c =? 2)%nat || (nlive cells_m c =? 3)%nat.
Proof.
  simpl. unfold nlive.
  pose proof (live_plus_dead cells_m (XX c) (YY c)) as Hsum.
  repeat match goal with
         | |- context [(?a =? ?b)%nat] => destruct (Nat.eqb_spec a b)
         end; simpl; (done || lia).
Qed.

Lemma elem_of_cell_out c w :
  w ∈ cell_out cells_m c
  ↔ (w ∈ dead_list cells_m (XX c) (YY c) ∧ nlive cells_m w = 3%nat)
    ∨ (w = c ∧ (nlive cells_m c = 2%nat ∨ nlive cells_m c = 3%nat)).
Proof.
  unfold cell_out. rewrite elem_of_union, elem_of_births, survive_test.
  destruct (Nat.eqb_spec (nlive cells_m c) 2) as [H2|H2];
    destruct (Nat.eqb_spec (nlive cells_m c) 3) as [H3|H3]; simpl;
    set_solver.
Qed.

(** Membership in the next generation, for an enumeration of [cells_m]:
    survivors and births, the dead cells ranging over the 64-bit keys. *)
Lemma next_generation_rule order w :
  (∀ c, c ∈ order ↔ c ∈ cells_m) →
  w ∈ next_generation order cells_m
  ↔ (w ∈ cells_m ∧ (nlive cells_m w = 2%nat ∨ nlive cells_m w = 3%nat))
    ∨ (is_u64 w ∧ (w ∉ cells_m) ∧ nlive cells_m w = 3%nat).
Proof.
  intros Horder. rewrite elem_of_next_generation. split.
  - intros (c & Hc%Horder & Hout%elem_of_cell_out).
    destruct Hout as [[Hd Hn]|[-> Hn]].
    + apply elem_of_dead_list in Hd as [Hnb Hd]. right.
      split_and!; [by eapply neighbours_u64|done..].
    + by left.
  - intros [[Hin Hn]|(Hw & Hout & Hn)].
    + exists w. split; [by apply Horder|].
      apply elem_of_cell_out. by right.
    + destruct (get_num_live_pos cells_m (XX w) (YY w)) as (k & Hk & Hkin).
      { unfold nlive in Hn. lia. }
      exists k. split; [by apply Horder|].
      apply elem_of_cell_out. left. split; [|done].
      apply elem_of_dead_list. split; [|done].
      by apply neighbours_sym.
Qed.

(** Every member of the next generation is a previous member or a neighbour
    of one. *)
Lemma next_generation_near order w :
  (∀ c, c ∈ order → c ∈ cells_m) →
  w ∈ next_generation order cells_m →
  ∃ c, c ∈ cells_m ∧ (w = c ∨ w ∈ neighbours (XX c) (YY c)).
Proof.
  intros Horder (c & Hc%Horder & Hout%elem_of_cell_out)%elem_of_next_generation.
  exists c. split; [done|].
  destruct Hout as [[Hd%elem_of_dead_list _]|[-> _]]; tauto.
Qed.

Lemma size_union_le (X Y : gset Z) : (size (X ∪ Y) ≤ size X + size Y)%nat.
Proof.
  rewrite size_union_alt.
  assert (size (Y ∖ X) ≤ size Y)%nat by (apply subseteq_size; set_solver).
  lia.
Qed.

Lemma size_list_to_set_le (l : list Z) :
  (size (list_to_set l : gset Z) ≤ length l)%nat.
Proof.
  induction l as [|w l IH].
  - change (size (∅ : gset Z) ≤ 0)%nat. by rewrite size_empty.
  - change (size ({[w]} ∪ (list_to_set l : gset Z)) ≤ S (length l))%nat.
    etrans; [apply size_union_le|]. rewrite size_singleton. lia.
Qed.

Lemma size_cell_out c : (size (cell_out cells_m c) ≤ 9)%nat.
Proof.
  unfold cell_out, births.
  etrans; [apply size_union_le|].
  assert (size (list_to_set (filter (λ d, nlive cells_m d = 3%nat)
                   (dead_list cells_m (XX c) (YY c))) : gset Z) ≤ 8)%nat
    as Hb.
  { etrans; [apply size_list_to_set_le|].
    etrans; [apply length_filter|]. apply length_dead_list. }
  destruct (_ || _); rewrite ?size_singleton, ?size_empty; lia.
Qed.

(** Each visited cell contributes itself and at most 8 dead neighbours. *)
Lemma size_next_generation order :
  (size (next_generation order cells_m) ≤ 9 * length order)%nat.
Proof.
  unfold next_generation. induction order as [|c order IH].
  - change (size (∅ : gset Z) ≤ 9 * 0)%nat. rewrite size_empty. lia.
  - change (size (cell_out cells_m c ∪ ⋃ (cell_out cells_m <$> order))
            ≤ 9 * S (length order))%nat.
    etrans; [apply size_union_le|].
    pose proof (size_cell_out c). lia.
Qed.

End rule.

(** ** Auxiliary facts about the loop of [tick] *)

Lemma perm_enumerates (cells_m : gset Z) (order : list Z) :
  order ≡ₚ elements cells_m → ∀ c, c ∈ order ↔ c ∈ cells_m.
Proof. intros H c. by rewrite H, elem_of_elements. Qed.

Lemma foldlM_ext {A B} (f g : B → A → option B) b l :
  (∀ b a, f b a = g b a) → foldlM f b l = foldlM g b l.
Proof.
  intros Hfg. revert b. induction l as [|a l IH]; intros b; simpl; [done|].
  rewrite Hfg. destruct (g b a); simpl; auto.
Qed.

Lemma tick_body_live_eq cells_m st c :
  tick_body cells_m st c = tick_body_live cells_m st c.
Proof.
  unfold tick_body, tick_body_live.
  destruct (get_dead_cells cells_m (XX c) (YY c) st.2) as [[z' n]|] eqn:Hg;
    simpl; [|done].
  apply get_dead_cells_count in Hg as ->.
  by rewrite (survive_test cells_m c).
Qed.

Lemma dead_fold_frame cells_m l z n z' n' :
  foldlM (dead_step cells_m) (z, n) l = Some (z', n') →
  ∀ i, (n' ≤ i)%nat → z' !! i = z !! i.
Proof.
  revert z n. induction l as [|w l IH]; intros z n; simpl.
  - by intros [= <- <-].
  - destruct (decide (w ∈ cells_m)) as [Hw|Hw].
    + rewrite dead_step_alive by done. simpl. apply IH.
    + rewrite dead_step_dead by done. unfold store.
      destruct (decide (n < length z)%nat); simpl; [|done].
      intros Hrun i Hi.
      pose proof (dead_fold_count _ _ _ _ _ _ Hrun) as Hn'.
      rewrite (IH _ _ Hrun i Hi).
      apply list_lookup_insert_ne. lia.
Qed.

Lemma wrap_adjacent_self c : wrap_adjacent c c.
Proof.
  exists 0, 0. rewrite !Z.add_0_r.
  unfold XX at 2. rewrite YY_arith at 2. rewrite !i32_i32.
  split_and!; try lia; [done|]. by rewrite YY_arith.
Qed.

Lemma wrap_adjacent_neighbour c w :
  w ∈ neighbours (XX c) (YY c) → wrap_adjacent w c.
Proof.
  intros (p & Hp & ->)%elem_of_neighbours.
  destruct (offsets_small p Hp) as (Hx & Hy & _).
  exists p.1, p.2. rewrite XX_key, YY_key. done.
Qed.

Lemma wrap_adjacent_interior c c' :
  wrap_adjacent c c' → interior c' → chebyshev c c' <= 1.
Proof.
  intros (dx & dy & Hdx & Hdy & Hx & Hy) [Hix Hiy].
  unfold INT32_MIN, INT32_MAX in *.
  rewrite (i32_id (XX c' + dx)) in Hx by (unfold is_i32; lia).
  rewrite (i32_id (YY c' + dy)) in Hy by (unfold is_i32; lia).
  unfold chebyshev. rewrite Hx, Hy. lia.
Qed.

(** ** Seeding: [insert_cells] *)

Section seeding.

Lemma insert_cells_cons cells_m c cells n :
  foldl (λ '(m, n_inserted) c,
           let '(m', second) := set_insert m (key (cell_x c) (cell_y c)) in
           (m', if second then S n_inserted else n_inserted))
        (cells_m, n) (c :: cells)
  = foldl (λ '(m, n_inserted) c,
           let '(m', second) := set_insert m (key (cell_x c) (cell_y c)) in
           (m', if second then S n_inserted else n_inserted))
        ({[cell_key c]} ∪ cells_m,
         if bool_decide (cell_key c ∉ cells_m) then S n else n) cells.
Proof. reflexivity. Qed.

Lemma size_new_step (k : Z) (L cells_m : gset Z) (n : nat) :
  ((if bool_decide (k ∉ cells_m) then S n else n)
   + size (L ∖ ({[k]} ∪ cells_m))
   = n + size (({[k]} ∪ L) ∖ cells_m))%nat.
Proof.
  destruct (decide (k ∈ cells_m)) as [Hk|Hk].
  - rewrite bool_decide_eq_false_2 by tauto.
    replace (({[k]} ∪ L) ∖ cells_m) with (L ∖ ({[k]} ∪ cells_m))
      by set_solver.
    done.
  - rewrite bool_decide_eq_true_2 by done.
    replace (({[k]} ∪ L) ∖ cells_m)
      with ({[k]} ∪ L ∖ ({[k]} ∪ cells_m)).
    + assert (Hdisj : ({[k]} : gset Z) ## L ∖ ({[k]} ∪ cells_m))
        by set_solver.
      rewrite (size_union _ _ Hdisj), size_singleton. lia.
    + apply set_eq. intros w. destruct (decide (w = k)); set_solver.
Qed.

Lemma insert_cells_acc cells cells_m n :
  foldl (λ '(m, n_inserted) c,
           let '(m', second) := set_insert m (key (cell_x c) (cell_y c)) in
           (m', if second then S n_inserted else n_inserted))
        (cells_m, n) cells
  = (list_to_set (cell_key <$> cells) ∪ cells_m,
     (n + size (list_to_set (cell_key <$> cells) ∖ cells_m : gset Z))%nat).
Proof.
  revert cells_m n. induction cells as [|c cells IH]; intros cells_m n.
  - simpl. f_equal; [set_solver|].
    replace (∅ ∖ cells_m) with (∅ : gset Z) by set_solver.
    rewrite size_empty. lia.
  - rewrite insert_cells_cons, IH. rewrite fmap_cons, list_to_set_cons.
    f_equal; [set_solver|]. apply size_new_step.
Qed.

Lemma insert_cells_spec cells_m cells :
  insert_cells cells_m cells
  = (list_to_set (cell_key <$> cells) ∪ cells_m,
     size (list_to_set (cell_key <$> cells) ∖ cells_m : gset Z)).
Proof. unfold insert_cells. by rewrite insert_cells_acc. Qed.

Lemma cell_key_inj c d :
  cell_in_range c → cell_in_range d → cell_key c = cell_key d → c = d.
Proof.
  destruct c as [cx cy], d as [dx dy]. unfold cell_in_range, cell_key. simpl.
  intros [Hcx Hcy] [Hdx Hdy] [Hx Hy]%key_inj.
  rewrite !i32_id in Hx, Hy by done. congruence.
Qed.

(** Counting keys is counting coordinates, for coordinates a [Cell] can
    hold. *)
Lemma size_new_keys cells_m cells :
  Forall cell_in_range cells →
  size (list_to_set (cell_key <$> cells) ∖ cells_m : gset Z)
  = length (remove_dups (filter (λ c, cell_key c ∉ cells_m) cells)).
Proof.
  intros Hrange.
  set (fresh := remove_dups (filter (λ c, cell_key c ∉ cells_m) cells)).
  assert (Hin : ∀ c, c ∈ fresh ↔ c ∈ cells ∧ cell_key c ∉ cells_m).
  { intros c. unfold fresh.
    rewrite elem_of_remove_dups, list_elem_of_filter. tauto. }
  replace (list_to_set (cell_key <$> cells) ∖ cells_m)
    with (list_to_set (cell_key <$> fresh) : gset Z).
  - rewrite size_list_to_set, length_fmap; [done|].
    apply NoDup_fmap_2_strong; [|apply NoDup_remove_dups].
    intros c d Hc%Hin Hd%Hin Heq.
    rewrite Forall_forall in Hrange.
    apply cell_key_inj; [apply Hrange; tauto..|done].
  - apply set_eq. intros w.
    rewrite elem_of_difference, !elem_of_list_to_set, !list_elem_of_fmap.
    split.
    + intros (c & -> & Hc%Hin). naive_solver.
    + intros [(c & -> & Hc) Hw]. exists c. split; [done|].
      apply Hin. done.
Qed.

End seeding.

(** ** Reading the state back: [get_live_cells] *)

Section sorting.

Lemma cell_ltb_lex a b : cell_ltb a b = true ↔ lex_lt a b.
Proof.
  unfold cell_ltb, lex_lt.
  destruct (Z.ltb_spec (cell_x a) (cell_x b)); [intuition lia|].
  rewrite Z.gtb_ltb.
  destruct (Z.ltb_spec (cell_x b) (cell_x a)); [intuition (lia || done)|].
  rewrite Z.ltb_lt. intuition lia.
Qed.

Lemma cell_le_lex a b : cell_le a b ↔ a = b ∨ lex_lt a b.
Proof.
  unfold cell_le. rewrite <- not_true_iff_false, cell_ltb_lex.
  destruct a as [ax ay], b as [bx b_y]. unfold lex_lt. simpl. split.
  - intros Hn.
    destruct (decide (ax = bx ∧ ay = b_y)) as [[-> ->]|Hne]; [by left|].
    right. lia.
  - intros [[= -> ->]|H]; lia.
Qed.

Global Instance cell_le_trans : Transitive cell_le.
Proof.
  intros a b c. rewrite !cell_le_lex. unfold lex_lt.
  intros [->|Hab] [->|Hbc]; auto. right. lia.
Qed.

Global Instance cell_le_antisymm : AntiSymm (=) cell_le.
Proof.
  intros a b. rewrite !cell_le_lex. unfold lex_lt.
  intros [->|Hab] [Hba|Hba]; auto. lia.
Qed.

Lemma cell_le_total a b : cell_le a b ∨ cell_le b a.
Proof.
  rewrite !cell_le_lex. unfold lex_lt.
  destruct a as [ax ay], b as [bx b_y]. simpl.
  destruct (decide (ax = bx ∧ ay = b_y)) as [[-> ->]|Hne]; [by left; left|].
  assert (ax < bx ∨ (ax = bx ∧ ay < b_y) ∨ bx < ax ∨ (bx = ax ∧ b_y < ay))
    by lia.
  tauto.
Qed.

Lemma insert_sorted_perm c l : insert_sorted c l ≡ₚ c :: l.
Proof.
  induction l as [|d l IH]; simpl; [done|].
  destruct (cell_ltb d c); [|done].
  rewrite IH. apply Permutation_swap.
Qed.

Lemma insert_sorted_sorted c l :
  StronglySorted cell_le l → StronglySorted cell_le (insert_sorted c l).
Proof.
  induction 1 as [|d l Hl IH Hd]; simpl.
  - repeat constructor.
  - destruct (cell_ltb d c) eqn:Hdc.
    + constructor; [done|].
      rewrite insert_sorted_perm. constructor; [|done].
      apply cell_le_lex. right. by apply cell_ltb_lex.
    + constructor; [by constructor|].
      constructor; [done|].
      eapply Forall_impl; [exact Hd|]. intros e He. by etrans.
Qed.

Lemma sort_cells_perm l : sort_cells l ≡ₚ l.
Proof.
  induction l as [|c l IH]; simpl; [done|].
  by rewrite insert_sorted_perm, IH.
Qed.

Lemma sort_cells_sorted l : StronglySorted cell_le (sort_cells l).
Proof.
  induction l as [|c l IH]; simpl; [constructor|].
  by apply insert_sorted_sorted.
Qed.

(** The order is total and antisymmetric, so the sorted arrangement of a
    sequence is unique: whatever algorithm [std::sort] runs, it returns
    [sort_cells]. *)
Lemma sort_cells_unique l l' :
  l' ≡ₚ l → StronglySorted cell_le l' → l' = sort_cells l.
Proof.
  intros Hperm Hsorted.
  apply (StronglySorted_unique cell_le); [done|apply sort_cells_sorted|].
  by rewrite sort_cells_perm.
Qed.

Lemma sorted_nodup_strict l :
  StronglySorted cell_le l → NoDup l → StronglySorted lex_lt l.
Proof.
  induction 1 as [|c l Hl IH Hc]; intros Hnd; [constructor|].
  apply NoDup_cons in Hnd as [Hnotin Hnd].
  constructor; [auto|].
  rewrite Forall_forall in Hc. apply Forall_forall. intros d Hd.
  destruct (proj1 (cell_le_lex c d) (Hc d Hd)) as [->|Hlt]; [done|done].
Qed.

Lemma Cell_of_whole_inj w w' :
  is_u64 w → is_u64 w' → Cell_of_whole w = Cell_of_whole w' → w = w'.
Proof.
  intros Hw Hw' [= Hx Hy].
  by rewrite <- (key_XX_YY w), <- (key_XX_YY w'), Hx, Hy.
Qed.

Lemma cells_of_order (cells_m : gset Z) (order : list Z) (c : Cell) :
  wf cells_m → (∀ w, w ∈ order ↔ w ∈ cells_m) →
  c ∈ Cell_of_whole <$> order
  ↔ cell_in_range c ∧ is_alive cells_m (cell_key c) = 1%nat.
Proof.
  intros Hwf Horder. rewrite list_elem_of_fmap.
  unfold is_alive, cell_in_range, cell_key. split.
  - intros (w & -> & Hw%Horder). simpl.
    rewrite key_XX_YY by auto. rewrite decide_True by done.
    unfold XX. rewrite YY_arith. split_and!; [apply i32_range..|done].
  - intros [[Hx Hy] Halive].
    destruct (decide (key (cell_x c) (cell_y c) ∈ cells_m)) as [Hin|];
      [|done].
    exists (key (cell_x c) (cell_y c)). split; [|by apply Horder].
    unfold Cell_of_whole. rewrite XX_key, YY_key, !i32_id by done.
    by destruct c.
Qed.

End sorting.

(** The invariant holds in every state the class can reach. *)
Lemma wf_empty : wf ∅.
Proof. intros w Hw. set_solver. Qed.

Lemma wf_insert_cells cells_m cells :
  wf cells_m → wf (insert_cells cells_m cells).1.
Proof.
  intros Hwf w. rewrite insert_cells_spec. simpl.
  rewrite elem_of_union, elem_of_list_to_set, list_elem_of_fmap.
  intros [(c & -> & _)|Hw]; [apply key_is_u64|by apply Hwf].
Qed.

Lemma wf_tick (cells_m : gset Z) (order zcells0 : list Z) new_cells :
  wf cells_m → (∀ c, c ∈ order → c ∈ cells_m) → length zcells0 = 8%nat →
  tick_from order zcells0 cells_m = Some new_cells → wf new_cells.
Proof.
  intros Hwf Horder Hz. rewrite tick_from_ok by lia. intros [= <-] w Hw.
  destruct (next_generation_near cells_m order w Horder Hw)
    as (c & Hc & [->|Hnb]); [by apply Hwf|by eapply neighbours_u64].
Qed.

(** The two phases of the blinker as sets of keys. *)
Lemma seed_blinker_h : seed blinker_h = {[key 0 0; key 1 0; key 2 0]}.
Proof. vm_compute. reflexivity. Qed.

Lemma seed_blinker_v : seed blinker_v = {[key 1 (-1); key 1 0; key 1 1]}.
Proof. vm_compute. reflexivity. Qed.

(** ** The claims *)

(** C1.  One [tick] installs exactly the survivors (live cells with 2 or 3
    live neighbours) and the births (dead cells with exactly 3 live
    neighbours); nothing else is in the new set. *)
Theorem tick_life_rule (cells_m : gset Z) (order zcells0 : list Z) :
  order ≡ₚ elements cells_m →
  length zcells0 = 8%nat →
  ∃ new_cells,
    tick_from order zcells0 cells_m = Some new_cells ∧
    ∀ c, c ∈ new_cells
         ↔ (c ∈ cells_m
            ∧ (get_num_live cells_m (XX c) (YY c) = 2%nat
               ∨ get_num_live cells_m (XX c) (YY c) = 3%nat))
           ∨ (is_u64 c ∧ (c ∉ cells_m)
              ∧ get_num_live cells_m (XX c) (YY c) = 3%nat).
Proof.
  intros Horder Hz. exists (next_generation order cells_m). split.
  - apply tick_from_ok. lia.
  - intros c. apply next_generation_rule. by apply perm_enumerates.
Qed.

Lemma tick_life_rule_witness :
  let s := seed blinker_h in
  elements s ≡ₚ elements s ∧
  length (replicate 8 0) = 8%nat ∧
  ∃ new_cells,
    tick_from (elements s) (replicate 8 0) s = Some new_cells ∧
    ∀ c, c ∈ new_cells
         ↔ (c ∈ s
            ∧ (get_num_live s (XX c) (YY c) = 2%nat
               ∨ get_num_live s (XX c) (YY c) = 3%nat))
           ∨ (is_u64 c ∧ (c ∉ s) ∧ get_num_live s (XX c) (YY c) = 3%nat).
Proof.
  intros s. split; [reflexivity|]. split; [reflexivity|].
  apply tick_life_rule; reflexivity.
Defined.

(** C2.  The test [ndead == 5 || ndead == 6] on the count returned by
    [get_dead_cells] holds exactly when the cell has 2 or 3 live neighbours,
    and [tick] computes the same result as the variant that tests the
    live-neighbour count directly. *)
Theorem dead_count_test_equiv (cells_m : gset Z) (order zcells0 : list Z) :
  (∀ c z z' ndead,
     get_dead_cells cells_m (XX c) (YY c) z = Some (z', ndead) →
     (ndead =? 5)%nat || (ndead =? 6)%nat
     = (get_num_live cells_m (XX c) (YY c) =? 2)%nat
       || (get_num_live cells_m (XX c) (YY c) =? 3)%nat) ∧
  tick_from order zcells0 cells_m = tick_live_from order zcells0 cells_m ∧
  (length zcells0 = 8%nat → is_Some (tick_from order zcells0 cells_m)).
Proof.
  split_and!.
  - intros c z z' ndead ->%get_dead_cells_count.
    apply (survive_test cells_m c).
  - unfold tick_from, tick_live_from. f_equal.
    apply foldlM_ext, tick_body_live_eq.
  - intros Hz. rewrite tick_from_ok by lia. eauto.
Qed.

Lemma dead_count_test_equiv_witness :
  let s := seed blinker_h in
  get_dead_cells s (XX (key 1 0)) (YY (key 1 0)) (replicate 8 0)
  = Some ([key 0 (-1); key 0 1; key 1 (-1); key 1 1; key 2 (-1); key 2 1;
           0; 0], 6%nat) ∧
  (6 =? 5)%nat || (6 =? 6)%nat
  = (get_num_live s (XX (key 1 0)) (YY (key 1 0)) =? 2)%nat
    || (get_num_live s (XX (key 1 0)) (YY (key 1 0)) =? 3)%nat ∧
  length (replicate 8 0) = 8%nat ∧
  is_Some (tick_from (elements s) (replicate 8 0) s).
Proof.
  intros s.
  assert (Hrun :
    get_dead_cells s (XX (key 1 0)) (YY (key 1 0)) (replicate 8 0)
    = Some ([key 0 (-1); key 0 1; key 1 (-1); key 1 1; key 2 (-1); key 2 1;
             0; 0], 6%nat)) by (vm_compute; reflexivity).
  destruct (dead_count_test_equiv s (elements s) (replicate 8 0))
    as (Htest & _ & Hsome).
  split; [exact Hrun|]. split; [exact (Htest _ _ _ _ Hrun)|].
  split; [reflexivity|]. apply Hsome. reflexivity.
Defined.

(** C3.  For signed 32-bit [x], [y] the key [WW(x, y)] (as the [int64_t] the
    macro yields and as the [uint64_t] stored in the set) decodes with [XX]
    and [YY] to exactly [(x, y)], and distinct coordinate pairs have distinct
    keys. *)
Theorem encoding_bijective :
  (∀ x y, is_i32 x → is_i32 y →
     XX (key x y) = x ∧ YY (key x y) = y ∧
     XX (WW x y) = x ∧ YY (WW x y) = y) ∧
  (∀ x y x' y', is_i32 x → is_i32 y → is_i32 x' → is_i32 y' →
     (x, y) ≠ (x', y') → key x y ≠ key x' y' ∧ WW x y ≠ WW x' y').
Proof.
  split.
  - intros x y Hx Hy.
    rewrite XX_key, YY_key, XX_WW, YY_WW, !i32_id; done.
  - intros x y x' y' Hx Hy Hx' Hy' Hne.
    split; intros Heq; apply Hne.
    + apply key_inj in Heq as [Ha Hb].
      rewrite !i32_id in Ha, Hb by done. congruence.
    + assert (Hk : key x y = key x' y') by (unfold key; congruence).
      apply key_inj in Hk as [Ha Hb].
      rewrite !i32_id in Ha, Hb by done. congruence.
Qed.

Lemma encoding_bijective_witness :
  is_i32 (-5) ∧ is_i32 7 ∧
  XX (key (-5) 7) = -5 ∧ YY (key (-5) 7) = 7 ∧
  (-5, 7) ≠ (7, -5) ∧ key (-5) 7 ≠ key 7 (-5).
Proof.
  assert (H5 : is_i32 (-5)) by (unfold is_i32; lia).
  assert (H7 : is_i32 7) by (unfold is_i32; lia).
  assert (Hne : (-5, 7) ≠ (7, -5)) by discriminate.
  destruct encoding_bijective as [Hdec Hinj].
  destruct (Hdec (-5) 7 H5 H7) as (Hx & Hy & _).
  split_and!; try assumption.
  exact (proj1 (Hinj _ _ _ _ H5 H7 H7 H5 Hne)).
Defined.

(** C4.  For every state and every coordinate pair, the live-neighbour count
    plus the number of cells [get_dead_cells] returns is 8. *)
Theorem live_dead_sum_8 (cells_m : gset Z) (x y : Z) (z : list Z) :
  length z = 8%nat →
  ∃ z' n, get_dead_cells cells_m x y z = Some (z', n)
          ∧ (get_num_live cells_m x y + n = 8)%nat.
Proof.
  intros Hz.
  destruct (get_dead_cells_ok cells_m x y z) as (z' & Hrun & _); [lia|].
  exists z', (length (dead_list cells_m x y)).
  split; [done|]. apply live_plus_dead.
Qed.

Lemma live_dead_sum_8_witness :
  length (replicate 8 0) = 8%nat ∧
  ∃ z' n, get_dead_cells (seed blinker_h) 1 0 (replicate 8 0) = Some (z', n)
          ∧ (get_num_live (seed blinker_h) 1 0 + n = 8)%nat.
Proof. split; [reflexivity|]. apply live_dead_sum_8. reflexivity. Defined.

(** C5, amended.  After one [tick] the population is finite (at most 9 times
    the previous one) and every live cell has a previously live cell at
    distance at most 1 in each coordinate, the coordinates being stepped with
    32-bit wrap-around; that is Chebyshev distance at most 1 whenever the
    previous cell has no coordinate at an end of the [int32_t] range. *)
Theorem tick_stays_near (cells_m : gset Z) (order zcells0 : list Z) :
  order ≡ₚ elements cells_m →
  length zcells0 = 8%nat →
  ∃ new_cells,
    tick_from order zcells0 cells_m = Some new_cells
    ∧ (size new_cells ≤ 9 * size cells_m)%nat
    ∧ (∀ c, c ∈ new_cells →
         ∃ c', c' ∈ cells_m ∧ wrap_adjacent c c'
               ∧ (interior c' → chebyshev c c' <= 1))
    ∧ ((∀ c', c' ∈ cells_m → interior c') → near_prior cells_m new_cells).
Proof.
  intros Horder Hz. exists (next_generation order cells_m).
  assert (Hnear : ∀ c, c ∈ next_generation order cells_m →
            ∃ c', c' ∈ cells_m ∧ wrap_adjacent c c').
  { intros c Hc.
    destruct (next_generation_near cells_m order c) as (c' & Hc' & Hcc');
      [by intros ? ?%(perm_enumerates _ _ Horder)|done|].
    exists c'. split; [done|].
    destruct Hcc' as [->|Hnb];
      [apply wrap_adjacent_self|by apply wrap_adjacent_neighbour]. }
  split_and!.
  - apply tick_from_ok. lia.
  - etrans; [apply size_next_generation|].
    rewrite Horder. unfold size, set_size. simpl. lia.
  - intros c (c' & Hc' & Hadj)%Hnear.
    exists c'. split_and!; [done..|]. by apply wrap_adjacent_interior.
  - intros Hint c (c' & Hc' & Hadj)%Hnear.
    exists c'. split; [done|]. apply wrap_adjacent_interior; auto.
Qed.

Lemma tick_stays_near_witness :
  let s := seed blinker_h in
  elements s ≡ₚ elements s ∧
  length (replicate 8 0) = 8%nat ∧
  ∃ new_cells,
    tick_from (elements s) (replicate 8 0) s = Some new_cells
    ∧ (size new_cells ≤ 9 * size s)%nat
    ∧ (∀ c, c ∈ new_cells →
         ∃ c', c' ∈ s ∧ wrap_adjacent c c'
               ∧ (interior c' → chebyshev c c' <= 1))
    ∧ ((∀ c', c' ∈ s → interior c') → near_prior s new_cells).
Proof.
  intros s. split; [reflexivity|]. split; [reflexivity|].
  apply tick_stays_near; reflexivity.
Defined.

(** C5 as stated fails on the last column: the blinker at [x = INT32_MAX]
    gives birth at [x = INT32_MIN], [2^32 - 1] columns away from every
    previous cell. *)
Lemma edge_blinker_escapes :
  tick (seed edge_blinker)
  = Some (seed [mkCell (INT32_MAX - 1) 0; mkCell INT32_MAX 0;
                mkCell INT32_MIN 0])
  ∧ ¬ (∀ new_cells, tick (seed edge_blinker) = Some new_cells →
                    near_prior (seed edge_blinker) new_cells).
Proof.
  assert (Hrun : tick (seed edge_blinker)
                 = Some (seed [mkCell (INT32_MAX - 1) 0; mkCell INT32_MAX 0;
                               mkCell INT32_MIN 0]))
    by (vm_compute; reflexivity).
  split; [exact Hrun|].
  intros Hnear. specialize (Hnear _ Hrun).
  destruct (Hnear (key INT32_MIN 0)) as (c' & Hc' & Hd).
  { vm_compute. set_solver. }
  revert Hd. apply elem_of_elements in Hc'. vm_compute in Hc'.
  set_unfold in Hc'. destruct Hc' as [->|[->|[->|[]]]]; vm_compute; auto.
Qed.

(** C6.  The horizontal blinker becomes the vertical one after one [tick]
    and is back after a second, whatever the enumeration order and the
    initial buffer contents. *)
Theorem blinker_period_2 :
  seed blinker_h = {[key 0 0; key 1 0; key 2 0]} ∧
  seed blinker_v = {[key 1 (-1); key 1 0; key 1 1]} ∧
  get_live_cells (seed blinker_h) = blinker_h ∧
  get_live_cells (seed blinker_v) = blinker_v ∧
  (∀ order zcells0,
     order ≡ₚ elements (seed blinker_h) → length zcells0 = 8%nat →
     tick_from order zcells0 (seed blinker_h) = Some (seed blinker_v)) ∧
  (∀ order zcells0,
     order ≡ₚ elements (seed blinker_v) → length zcells0 = 8%nat →
     tick_from order zcells0 (seed blinker_v) = Some (seed blinker_h)).
Proof.
  split_and!.
  - vm_compute. reflexivity.
  - vm_compute. reflexivity.
  - vm_compute. reflexivity.
  - vm_compute. reflexivity.
  - intros order z0 Horder Hz. rewrite tick_from_ok by lia. f_equal.
    rewrite (next_generation_order _ order (elements (seed blinker_h)))
      by (intros c; by rewrite Horder).
    vm_compute. reflexivity.
  - intros order z0 Horder Hz. rewrite tick_from_ok by lia. f_equal.
    rewrite (next_generation_order _ order (elements (seed blinker_v)))
      by (intros c; by rewrite Horder).
    vm_compute. reflexivity.
Qed.

Lemma blinker_period_2_witness :
  elements (seed blinker_h) ≡ₚ elements (seed blinker_h) ∧
  length (replicate 8 0) = 8%nat ∧
  tick_from (elements (seed blinker_h)) (replicate 8 0) (seed blinker_h)
  = Some (seed blinker_v).
Proof.
  split; [reflexivity|]. split; [reflexivity|].
  destruct blinker_period_2 as (_ & _ & _ & _ & Hstep & _).
  apply Hstep; reflexivity.
Defined.

(** C7.  A second [insert_cells] of the same list leaves the set as the first
    one made it and returns 0; a call returns the number of keys it added,
    which is the number of distinct input coordinates that were not alive
    (repeated or already alive coordinates add nothing). *)
Theorem insert_cells_idempotent (cells_m : gset Z) (cells : cell_list_type) :
  (insert_cells (insert_cells cells_m cells).1 cells).1
  = (insert_cells cells_m cells).1 ∧
  (insert_cells (insert_cells cells_m cells).1 cells).2 = 0%nat ∧
  (insert_cells cells_m cells).1
  = list_to_set (cell_key <$> cells) ∪ cells_m ∧
  (insert_cells cells_m cells).2
  = (size (insert_cells cells_m cells).1 - size cells_m)%nat ∧
  (Forall cell_in_range cells →
   (insert_cells cells_m cells).2
   = length (remove_dups
               (filter (λ c, is_alive cells_m (cell_key c) = 0%nat) cells))).
Proof.
  rewrite !insert_cells_spec. cbn [fst snd]. split_and!.
  - set_solver.
  - apply size_empty_iff. set_solver.
  - done.
  - pose proof (size_union_alt cells_m
                  (list_to_set (cell_key <$> cells) : gset Z)) as Hsize.
    rewrite (union_comm_L (C := gset Z) cells_m) in Hsize. lia.
  - intros Hrange. rewrite size_new_keys by done. do 2 f_equal.
    apply list_filter_iff. intros c. unfold is_alive.
    destruct (decide (cell_key c ∈ cells_m)); split; (done || tauto).
Qed.

Lemma insert_cells_idempotent_witness :
  let cells := [mkCell 0 0; mkCell 1 0; mkCell 0 0; mkCell 2 0] in
  let cells_m : gset Z := {[key 1 0]} in
  Forall cell_in_range cells ∧
  (insert_cells cells_m cells).2
  = length (remove_dups
              (filter (λ c, is_alive cells_m (cell_key c) = 0%nat) cells)).
Proof.
  intros cells cells_m.
  assert (Hrange : Forall cell_in_range cells)
    by (repeat constructor; unfold is_i32; simpl; lia).
  split; [exact Hrange|].
  destruct (insert_cells_idempotent cells_m cells) as (_ & _ & _ & _ & Hn).
  exact (Hn Hrange).
Defined.

(** C8.  In a state whose members are 64-bit keys, [get_live_cells] returns
    every live cell exactly once, in strictly increasing lexicographic order
    by [x] then [y] (which is the order [operator<] decides), as many cells
    as [count()] reports, and the same sequence whatever the enumeration
    order of the container. *)
Theorem live_cells_sorted (cells_m : gset Z) (order : list Z) :
  wf cells_m →
  order ≡ₚ elements cells_m →
  NoDup (get_live_cells_from order) ∧
  (∀ c, c ∈ get_live_cells_from order
        ↔ cell_in_range c ∧ is_alive cells_m (cell_key c) = 1%nat) ∧
  StronglySorted lex_lt (get_live_cells_from order) ∧
  (∀ a b, cell_ltb a b = true ↔ lex_lt a b) ∧
  length (get_live_cells_from order) = count cells_m ∧
  get_live_cells_from order = get_live_cells cells_m.
Proof.
  intros Hwf Horder. unfold get_live_cells_from, get_live_cells.
  assert (Hnd : NoDup (Cell_of_whole <$> order)).
  { apply NoDup_fmap_2_strong.
    - intros w w' Hw Hw'. rewrite Horder, elem_of_elements in Hw, Hw'.
      apply Cell_of_whole_inj; auto.
    - rewrite Horder. apply NoDup_elements. }
  assert (Hnd' : NoDup (sort_cells (Cell_of_whole <$> order)))
    by (by rewrite sort_cells_perm).
  split_and!.
  - done.
  - intros c. rewrite sort_cells_perm.
    apply cells_of_order; [done|]. by apply perm_enumerates.
  - apply sorted_nodup_strict; [apply sort_cells_sorted|done].
  - apply cell_ltb_lex.
  - rewrite sort_cells_perm, length_fmap, Horder. done.
  - apply sort_cells_unique; [|apply sort_cells_sorted].
    by rewrite sort_cells_perm, Horder.
Qed.

Lemma live_cells_sorted_witness :
  let s := seed blinker_v in
  wf s ∧
  elements s ≡ₚ elements s ∧
  NoDup (get_live_cells_from (elements s)) ∧
  (∀ c, c ∈ get_live_cells_from (elements s)
        ↔ cell_in_range c ∧ is_alive s (cell_key c) = 1%nat) ∧
  StronglySorted lex_lt (get_live_cells_from (elements s)) ∧
  (∀ a b, cell_ltb a b = true ↔ lex_lt a b) ∧
  length (get_live_cells_from (elements s)) = count s ∧
  get_live_cells_from (elements s) = get_live_cells s.
Proof.
  intros s.
  assert (Hwf : wf s) by apply wf_insert_cells, wf_empty.
  split; [exact Hwf|]. split; [reflexivity|].
  apply live_cells_sorted; [exact Hwf|reflexivity].
Defined.

(** C9.  On an 8-slot buffer [get_dead_cells] performs no access outside the
    array, returns [n <= 8], leaves the slots from [n] on untouched, and
    every [zcells[i]] with [i < n] is a valid read; [tick] as a whole
    completes without an out-of-bounds access. *)
Theorem dead_cells_in_bounds (cells_m : gset Z) :
  (∀ x y z, length z = 8%nat →
     ∃ z' n, get_dead_cells cells_m x y z = Some (z', n)
             ∧ (n ≤ 8)%nat ∧ length z' = 8%nat
             ∧ (∀ i, (i < n)%nat → is_Some (load z' i))
             ∧ (∀ i, (n ≤ i)%nat → z' !! i = z !! i)) ∧
  (∀ order zcells0, length zcells0 = 8%nat →
     is_Some (tick_from order zcells0 cells_m)).
Proof.
  split.
  - intros x y z Hz.
    destruct (get_dead_cells_ok cells_m x y z) as (z' & Hrun & Hlen & _);
      [lia|].
    pose proof (length_dead_list cells_m x y) as Hn.
    exists z', (length (dead_list cells_m x y)).
    split_and!; [done|done|lia| |].
    + intros i Hi. apply lookup_lt_is_Some_2. lia.
    + rewrite get_dead_cells_fold in Hrun.
      by apply (dead_fold_frame _ _ _ _ _ _ Hrun).
  - intros order z0 Hz. rewrite tick_from_ok by lia. eauto.
Qed.

Lemma dead_cells_in_bounds_witness :
  let s := seed blinker_h in
  length (replicate 8 0) = 8%nat ∧
  (∃ z' n, get_dead_cells s 5 5 (replicate 8 0) = Some (z', n)
           ∧ (n ≤ 8)%nat ∧ length z' = 8%nat
           ∧ (∀ i, (i < n)%nat → is_Some (load z' i))
           ∧ (∀ i, (n ≤ i)%nat → z' !! i = replicate 8 0 !! i)) ∧
  is_Some (tick_from (elements s) (replicate 8 0) s).
Proof.
  intros s. destruct (dead_cells_in_bounds s) as [Hdead Htick].
  split; [reflexivity|]. split.
  - apply Hdead. reflexivity.
  - apply Htick. reflexivity.
Defined.

(** The bound is the size of the array: with one slot less the eighth write
    of an isolated cell falls outside it. *)
Example get_dead_cells_needs_8 :
  get_dead_cells ∅ 0 0 (replicate 7 0) = None.
Proof. reflexivity. Qed.

(** C10.  The result of [tick] depends only on the set of live cells: any two
    enumerations of it, in any order and with any repetitions, and any
    initial buffer contents give the same new set. *)
Theorem tick_order_independent (cells_m : gset Z)
    (order1 order2 zcells1 zcells2 : list Z) :
  (∀ c, c ∈ order1 ↔ c ∈ cells_m) →
  (∀ c, c ∈ order2 ↔ c ∈ cells_m) →
  length zcells1 = 8%nat →
  length zcells2 = 8%nat →
  ∃ new_cells,
    tick_from order1 zcells1 cells_m = Some new_cells
    ∧ tick_from order2 zcells2 cells_m = Some new_cells.
Proof.
  intros H1 H2 Hz1 Hz2. exists (next_generation order1 cells_m).
  rewrite !tick_from_ok by lia. split; [done|]. f_equal.
  apply next_generation_order. intros c. by rewrite H1, H2.
Qed.

Lemma tick_order_independent_witness :
  let s := seed blinker_h in
  let order1 := [key 0 0; key 1 0; key 2 0] in
  let order2 := [key 2 0; key 0 0; key 1 0; key 0 0] in
  (∀ c, c ∈ order1 ↔ c ∈ s) ∧
  (∀ c, c ∈ order2 ↔ c ∈ s) ∧
  length (replicate 8 0) = 8%nat ∧
  length (replicate 8 7) = 8%nat ∧
  ∃ new_cells,
    tick_from order1 (replicate 8 0) s = Some new_cells
    ∧ tick_from order2 (replicate 8 7) s = Some new_cells.
Proof.
  intros s order1 order2.
  assert (H1 : ∀ c, c ∈ order1 ↔ c ∈ s)
    by (intros c; unfold s, order1; rewrite seed_blinker_h; set_solver).
  assert (H2 : ∀ c, c ∈ order2 ↔ c ∈ s)
    by (intros c; unfold s, order2; rewrite seed_blinker_h; set_solver).
  split; [exact H1|]. split; [exact H2|].
  split; [reflexivity|]. split; [reflexivity|].
  apply tick_order_independent; [exact H1|exact H2|reflexivity..].
Defined.

(** ** Further properties of the code *)

(** *** The comparison operators of [Cell] *)

Section operators.

Ltac cell_cmp :=
  unfold cell_leb, cell_geb, cell_gtb, cell_neb, cell_eqb, cell_ltb; simpl;
  rewrite ?Z.gtb_ltb;
  repeat match goal with
         | |- context [?a <? ?b] => destruct (Z.ltb_spec a b)
         | |- context [?a =? ?b] => destruct (Z.eqb_spec a b)
         end; simpl; try done; try lia.

Lemma cell_eqb_eq a b : cell_eqb a b = true ↔ a = b.
Proof.
  unfold cell_eqb. rewrite andb_true_iff, !Z.eqb_eq.
  destruct a, b; simpl. split; [intros [-> ->]; done|by intros [= -> ->]].
Qed.

Lemma cell_ltb_irrefl a : cell_ltb a a = false.
Proof. destruct a. cell_cmp. Qed.

Lemma cell_ltb_trans a b c :
  cell_ltb a b = true → cell_ltb b c = true → cell_ltb a c = true.
Proof. rewrite !cell_ltb_lex. unfold lex_lt. lia. Qed.

Lemma cell_trichotomy a b :
  (cell_ltb a b = true ∧ cell_eqb a b = false ∧ cell_gtb a b = false) ∨
  (cell_ltb a b = false ∧ cell_eqb a b = true ∧ cell_gtb a b = false) ∨
  (cell_ltb a b = false ∧ cell_eqb a b = false ∧ cell_gtb a b = true).
Proof. destruct a, b. cell_cmp; tauto. Qed.

Lemma cell_leb_lt_eq a b : cell_leb a b = cell_ltb a b || cell_eqb a b.
Proof. destruct a, b. cell_cmp. Qed.

Lemma cell_geb_gt_eq a b : cell_geb a b = cell_gtb a b || cell_eqb a b.
Proof. destruct a, b. cell_cmp. Qed.

End operators.

(** X1.  [operator<] is a strict total order on cells: it is irreflexive and
    transitive, and for any two cells exactly one of [a < b], [a == b],
    [a > b] holds, [operator==] holding for identical coordinates only. *)
Theorem cell_order_strict_total :
  (∀ a, cell_ltb a a = false) ∧
  (∀ a b c, cell_ltb a b = true → cell_ltb b c = true → cell_ltb a c = true) ∧
  (∀ a b, cell_eqb a b = true ↔ a = b) ∧
  (∀ a b,
     (cell_ltb a b = true ∧ cell_eqb a b = false ∧ cell_gtb a b = false) ∨
     (cell_ltb a b = false ∧ cell_eqb a b = true ∧ cell_gtb a b = false) ∨
     (cell_ltb a b = false ∧ cell_eqb a b = false ∧ cell_gtb a b = true)).
Proof.
  split_and!;
    [apply cell_ltb_irrefl|apply cell_ltb_trans|apply cell_eqb_eq
    |apply cell_trichotomy].
Qed.

Lemma cell_order_strict_total_witness :
  cell_ltb (mkCell 1 5) (mkCell 2 0) = true ∧
  cell_ltb (mkCell 2 0) (mkCell 2 3) = true ∧
  cell_ltb (mkCell 1 5) (mkCell 2 3) = true.
Proof.
  assert (H1 : cell_ltb (mkCell 1 5) (mkCell 2 0) = true) by reflexivity.
  assert (H2 : cell_ltb (mkCell 2 0) (mkCell 2 3) = true) by reflexivity.
  split; [exact H1|]. split; [exact H2|].
  exact (proj1 (proj2 cell_order_strict_total) _ _ _ H1 H2).
Defined.

(** X2.  The derived operators agree with the order: [a <= b] is [a < b] or
    [a == b], [a >= b] is [b <= a] and is [a > b] or [a == b], and [a != b]
    holds exactly for different coordinates. *)
Theorem cell_derived_operators (a b : Cell) :
  cell_leb a b = cell_ltb a b || cell_eqb a b ∧
  cell_geb a b = cell_leb b a ∧
  cell_geb a b = cell_gtb a b || cell_eqb a b ∧
  (cell_neb a b = true ↔ a ≠ b).
Proof.
  split_and!.
  - apply cell_leb_lt_eq.
  - done.
  - apply cell_geb_gt_eq.
  - unfold cell_neb. rewrite negb_true_iff, <- not_true_iff_false.
    by rewrite cell_eqb_eq.
Qed.

(** ** More on the neighbourhood *)

Section neighbourhood_more.

Lemma i32_eq_small a b :
  i32 a = i32 b → - 2 ^ 32 < a - b < 2 ^ 32 → a = b.
Proof.
  intros Heq Hsmall.
  assert (Hmod : a mod 2 ^ 32 = b mod 2 ^ 32)
    by (by rewrite <- (i32_mod a), Heq, i32_mod).
  pose proof (Z.div_mod a (2 ^ 32)) as Ha.
  pose proof (Z.div_mod b (2 ^ 32)) as Hb.
  lia.
Qed.

Lemma offsets_NoDup : NoDup offsets.
Proof. unfold offsets. repeat constructor; set_solver. Qed.

Lemma elem_of_offsets p :
  p ∈ offsets ↔ -1 <= p.1 <= 1 ∧ -1 <= p.2 <= 1 ∧ p ≠ (0, 0).
Proof.
  split; [apply offsets_small|].
  destruct p as [dx dy]. simpl. intros (Hx & Hy & Hne).
  assert (Hdx : dx = -1 ∨ dx = 0 ∨ dx = 1) by lia.
  assert (Hdy : dy = -1 ∨ dy = 0 ∨ dy = 1) by lia.
  unfold offsets.
  destruct Hdx as [-> | [-> | ->]], Hdy as [-> | [-> | ->]];
    try done; set_solver.
Qed.

Lemma key_offset_inj x y p q :
  p ∈ offsets ∨ p = (0, 0) → q ∈ offsets ∨ q = (0, 0) →
  key (x + p.1) (y + p.2) = key (x + q.1) (y + q.2) → p = q.
Proof.
  intros Hp Hq [Hx Hy]%key_inj.
  assert (Hps : -1 <= p.1 <= 1 ∧ -1 <= p.2 <= 1).
  { destruct Hp as [Hp%offsets_small| ->]; simpl; [tauto|lia]. }
  assert (Hqs : -1 <= q.1 <= 1 ∧ -1 <= q.2 <= 1).
  { destruct Hq as [Hq%offsets_small| ->]; simpl; [tauto|lia]. }
  apply i32_eq_small in Hx; [|lia]. apply i32_eq_small in Hy; [|lia].
  destruct p, q; simpl in *. f_equal; lia.
Qed.

(** The eight probed keys are pairwise distinct, and none is the centre. *)
Lemma neighbours_NoDup x y : NoDup (neighbours x y).
Proof.
  rewrite neighbours_offsets.
  apply NoDup_fmap_2_strong; [|apply offsets_NoDup].
  intros p q Hp Hq. apply key_offset_inj; by left.
Qed.

Lemma centre_not_neighbour x y : key x y ∉ neighbours x y.
Proof.
  intros (p & Hp & Heq)%elem_of_neighbours.
  destruct (offsets_small p Hp) as (_ & _ & Hne). apply Hne. symmetry.
  apply (key_offset_inj x y (0, 0) p); [by right|by left|].
  simpl. by rewrite !Z.add_0_r.
Qed.

Lemma filter_agree {A} (P Q : A → Prop) `{∀ x, Decision (P x)}
    `{∀ x, Decision (Q x)} (l : list A) :
  (∀ x, x ∈ l → P x ↔ Q x) → filter P l = filter Q l.
Proof.
  induction l as [|a l IH]; intros Hl; [done|].
  rewrite !filter_cons.
  assert (Ha : P a ↔ Q a) by (apply Hl; left).
  rewrite IH by (intros x Hx; apply Hl; by right).
  destruct (decide (P a)), (decide (Q a)); tauto.
Qed.

(** [get_num_live] looks at the eight neighbours and at nothing else. *)
Lemma get_num_live_local (s s' : gset Z) x y :
  (∀ w, w ∈ neighbours x y → w ∈ s ↔ w ∈ s') →
  get_num_live s x y = get_num_live s' x y.
Proof.
  intros H. rewrite !get_num_live_filter. f_equal. by apply filter_agree.
Qed.

Lemma get_num_live_le_8 (s : gset Z) x y : (get_num_live s x y ≤ 8)%nat.
Proof. pose proof (live_plus_dead s x y). lia. Qed.

(** The count is the number of live keys in the neighbourhood, so it is
    bounded by the population. *)
Lemma get_num_live_size (s : gset Z) x y :
  get_num_live s x y
  = size (list_to_set (filter (λ w, w ∈ s) (neighbours x y)) : gset Z).
Proof.
  rewrite get_num_live_filter, size_list_to_set; [done|].
  apply NoDup_filter, neighbours_NoDup.
Qed.

Lemma get_num_live_le_size (s : gset Z) x y :
  (get_num_live s x y ≤ size s)%nat.
Proof.
  rewrite get_num_live_size. apply subseteq_size.
  intros w. rewrite elem_of_list_to_set, list_elem_of_filter. tauto.
Qed.

Lemma nlive_lt_size (s : gset Z) c :
  c ∈ s → (nlive s c < size s)%nat.
Proof.
  intros Hc. unfold nlive. rewrite get_num_live_size.
  apply subset_size. split.
  - intros w. rewrite elem_of_list_to_set, list_elem_of_filter. tauto.
  - intros Hsub. specialize (Hsub c Hc).
    rewrite elem_of_list_to_set, list_elem_of_filter in Hsub.
    destruct Hsub as [_ Hnb].
    pose proof (neighbours_u64 _ _ _ Hnb) as Hu.
    rewrite <- (key_XX_YY c Hu) in Hnb at 1.
    by apply centre_not_neighbour in Hnb.
Qed.

Lemma length_filter_eq_NoDup (l : list Z) c :
  NoDup l →
  length (filter (λ w, w ∈ ({[c]} : gset Z)) l)
  = if decide (c ∈ l) then 1%nat else 0%nat.
Proof.
  induction 1 as [|a l Ha Hl IH]; [done|].
  rewrite filter_cons.
  destruct (decide (a ∈ ({[c]} : gset Z))) as [Hac|Hac]; simpl; rewrite IH.
  - apply elem_of_singleton in Hac as ->.
    rewrite (decide_True (P := c ∈ c :: l)) by left.
    by rewrite (decide_False (P := c ∈ l)).
  - destruct (decide (c ∈ l)) as [Hc|Hc].
    + by rewrite (decide_True (P := c ∈ a :: l)) by (by right).
    + rewrite (decide_False (P := c ∈ a :: l)); [done|].
      intros [->|?]%elem_of_cons; [|done]. apply Hac. set_solver.
Qed.

End neighbourhood_more.

(** X3.  Decoding a 64-bit key into a [Cell] and encoding the cell again
    gives the key back, the decoded coordinates are always 32-bit values, and
    encoding then decoding a cell of 32-bit coordinates gives the cell
    back. *)
Theorem cell_whole_round_trip :
  (∀ w, is_u64 w →
        cell_key (Cell_of_whole w) = w ∧ cell_in_range (Cell_of_whole w)) ∧
  (∀ c, cell_in_range c →
        Cell_of_whole (cell_key c) = c ∧ is_u64 (cell_key c)).
Proof.
  split.
  - intros w Hw. split; [by apply key_XX_YY|].
    unfold cell_in_range, Cell_of_whole. simpl. unfold XX.
    rewrite YY_arith. split; apply i32_range.
  - intros [cx cy] [Hx Hy]. simpl in *. split; [|apply key_is_u64].
    unfold Cell_of_whole, cell_key. simpl.
    by rewrite XX_key, YY_key, !i32_id.
Qed.

Lemma cell_whole_round_trip_witness :
  is_u64 (2 ^ 63 + 5) ∧ cell_in_range (mkCell (-3) 4) ∧
  cell_key (Cell_of_whole (2 ^ 63 + 5)) = 2 ^ 63 + 5 ∧
  Cell_of_whole (cell_key (mkCell (-3) 4)) = mkCell (-3) 4.
Proof.
  assert (Hw : is_u64 (2 ^ 63 + 5)) by (unfold is_u64; lia).
  assert (Hc : cell_in_range (mkCell (-3) 4))
    by (unfold cell_in_range, is_i32; simpl; lia).
  destruct cell_whole_round_trip as [Hdec Henc].
  split; [exact Hw|]. split; [exact Hc|].
  split; [exact (proj1 (Hdec _ Hw))|exact (proj1 (Henc _ Hc))].
Defined.

(** X4.  [get_num_live] is at most 8, never counts the cell itself (making
    the centre alive or dead does not change its count), and depends only on
    which of the eight neighbour keys are alive. *)
Theorem get_num_live_excludes_centre (cells_m : gset Z) (x y : Z) :
  (get_num_live cells_m x y ≤ 8)%nat ∧
  get_num_live ({[key x y]} ∪ cells_m) x y = get_num_live cells_m x y ∧
  get_num_live (cells_m ∖ {[key x y]}) x y = get_num_live cells_m x y ∧
  (∀ cells_m' : gset Z,
     (∀ dx dy, -1 <= dx <= 1 → -1 <= dy <= 1 → (dx, dy) ≠ (0, 0) →
        key (x + dx) (y + dy) ∈ cells_m ↔ key (x + dx) (y + dy) ∈ cells_m') →
     get_num_live cells_m x y = get_num_live cells_m' x y).
Proof.
  split_and!.
  - apply get_num_live_le_8.
  - apply get_num_live_local. intros w Hw.
    pose proof (centre_not_neighbour x y). set_solver.
  - apply get_num_live_local. intros w Hw.
    pose proof (centre_not_neighbour x y). set_solver.
  - intros s' Hagree. apply get_num_live_local.
    intros w (p & Hp & ->)%elem_of_neighbours.
    destruct (offsets_small p Hp) as (Hx & Hy & Hne).
    apply Hagree; [done..|]. by destruct p.
Qed.

Lemma get_num_live_excludes_centre_witness :
  get_num_live (seed blinker_h) 5 5 = get_num_live ∅ 5 5.
Proof.
  apply (get_num_live_excludes_centre (seed blinker_h) 5 5).
  intros dx dy Hx Hy Hne.
  assert (Hdx : dx = -1 ∨ dx = 0 ∨ dx = 1) by lia.
  assert (Hdy : dy = -1 ∨ dy = 0 ∨ dy = 1) by lia.
  destruct Hdx as [-> | [-> | ->]], Hdy as [-> | [-> | ->]]; try done;
    apply bool_decide_unpack; vm_compute; exact I.
Defined.

(** X5.  On an 8-slot buffer [get_dead_cells] leaves in [z[0..n)] exactly the
    dead cells among the eight neighbours [(x + dx, y + dy)], each once, in
    the scan order of the source. *)
Theorem get_dead_cells_content (cells_m : gset Z) (x y : Z) (z : list Z) :
  length z = 8%nat →
  ∃ z' n,
    get_dead_cells cells_m x y z = Some (z', n) ∧
    take n z' = filter (λ w, w ∉ cells_m) (neighbours x y) ∧
    NoDup (take n z') ∧
    ∀ w, w ∈ take n z'
         ↔ is_dead cells_m w = 1%nat
           ∧ ∃ dx dy, -1 <= dx <= 1 ∧ -1 <= dy <= 1 ∧ (dx, dy) ≠ (0, 0)
                      ∧ w = key (x + dx) (y + dy).
Proof.
  intros Hz.
  destruct (get_dead_cells_ok cells_m x y z) as (z' & Hrun & _ & Htake);
    [lia|].
  exists z', (length (dead_list cells_m x y)).
  rewrite Htake. split_and!; [done|done|..].
  - apply NoDup_filter, neighbours_NoDup.
  - intros w. rewrite elem_of_dead_list, elem_of_neighbours.
    unfold is_dead. split.
    + intros [(p & Hp%elem_of_offsets & ->) Hdead].
      rewrite decide_False by done. split; [done|].
      exists p.1, p.2. destruct p; naive_solver.
    + intros [Hdead (dx & dy & Hx & Hy & Hne & ->)].
      split; [|by destruct (decide _)].
      exists (dx, dy). split; [|done]. by apply elem_of_offsets.
Qed.

Lemma get_dead_cells_content_witness :
  length (replicate 8 0) = 8%nat ∧
  ∃ z' n,
    get_dead_cells (seed blinker_h) 1 0 (replicate 8 0) = Some (z', n) ∧
    take n z' = filter (λ w, w ∉ seed blinker_h) (neighbours 1 0) ∧
    NoDup (take n z') ∧
    ∀ w, w ∈ take n z'
         ↔ is_dead (seed blinker_h) w = 1%nat
           ∧ ∃ dx dy, -1 <= dx <= 1 ∧ -1 <= dy <= 1 ∧ (dx, dy) ≠ (0, 0)
                      ∧ w = key (1 + dx) (0 + dy).
Proof. split; [reflexivity|]. apply get_dead_cells_content. reflexivity. Defined.

(** X6.  Being a neighbour is symmetric: for two 64-bit keys, [c] is counted
    by [get_num_live] around [d] exactly when [d] is counted around [c]. *)
Theorem neighbour_count_symmetric (c d : Z) :
  is_u64 c → is_u64 d →
  get_num_live {[c]} (XX d) (YY d) = get_num_live {[d]} (XX c) (YY c) ∧
  (get_num_live {[c]} (XX d) (YY d) ≤ 1)%nat.
Proof.
  intros Hc Hd. rewrite !get_num_live_filter.
  rewrite !length_filter_eq_NoDup by apply neighbours_NoDup.
  split; [|destruct (decide _); lia].
  destruct (decide (c ∈ neighbours (XX d) (YY d))) as [H1|H1],
    (decide (d ∈ neighbours (XX c) (YY c))) as [H2|H2]; try done.
  - by apply neighbours_sym in H1.
  - by apply neighbours_sym in H2.
Qed.

Lemma neighbour_count_symmetric_witness :
  is_u64 (key 3 4) ∧ is_u64 (key 4 5) ∧
  get_num_live {[key 3 4]} (XX (key 4 5)) (YY (key 4 5))
  = get_num_live {[key 4 5]} (XX (key 3 4)) (YY (key 3 4)).
Proof.
  split; [apply key_is_u64|]. split; [apply key_is_u64|].
  apply neighbour_count_symmetric; apply key_is_u64.
Defined.

(** X7.  A population of fewer than three cells is extinct after one [tick]:
    no cell has the two live neighbours survival needs or the three a birth
    needs.  This covers the empty organism and the isolated cell. *)
Theorem tick_small_population_dies (cells_m : gset Z)
    (order zcells0 : list Z) :
  order ≡ₚ elements cells_m →
  length zcells0 = 8%nat →
  (size cells_m < 3)%nat →
  tick_from order zcells0 cells_m = Some ∅.
Proof.
  intros Horder Hz Hsize. rewrite tick_from_ok by lia. f_equal.
  apply set_eq. intros w. split; [|set_solver].
  rewrite next_generation_rule by (by apply perm_enumerates).
  intros [[Hin Hn]|(_ & _ & Hn)]; exfalso.
  - pose proof (nlive_lt_size cells_m w Hin). lia.
  - pose proof (get_num_live_le_size cells_m (XX w) (YY w)).
    unfold nlive in Hn. lia.
Qed.

Lemma tick_small_population_dies_witness :
  let s := seed [mkCell 5 5] in
  elements s ≡ₚ elements s ∧ length (replicate 8 0) = 8%nat ∧
  (size s < 3)%nat ∧
  tick_from (elements s) (replicate 8 0) s = Some ∅.
Proof.
  intros s.
  assert (Hsize : (size s < 3)%nat) by (vm_compute; lia).
  split; [reflexivity|]. split; [reflexivity|]. split; [exact Hsize|].
  apply tick_small_population_dies; [reflexivity|reflexivity|exact Hsize].
Defined.

(** *** More on seeding and reading back *)

Section seeding_more.

Lemma is_alive_1 (s : gset Z) w : is_alive s w = 1%nat ↔ w ∈ s.
Proof. unfold is_alive. destruct (decide (w ∈ s)); naive_solver. Qed.

Lemma elem_of_keys (cells : list Cell) w :
  w ∈ (list_to_set (cell_key <$> cells) : gset Z)
  ↔ ∃ c, c ∈ cells ∧ w = key (cell_x c) (cell_y c).
Proof.
  rewrite elem_of_list_to_set, list_elem_of_fmap. unfold cell_key.
  naive_solver.
Qed.

Lemma keys_same_elements (cells cells' : list Cell) :
  (∀ c, c ∈ cells ↔ c ∈ cells') →
  (list_to_set (cell_key <$> cells) : gset Z)
  = list_to_set (cell_key <$> cells').
Proof.
  intros H. apply set_eq. intros w. rewrite !elem_of_keys. naive_solver.
Qed.

Lemma insert_cells_app s (l1 l2 : list Cell) :
  insert_cells s (l1 ++ l2)
  = ((insert_cells (insert_cells s l1).1 l2).1,
     ((insert_cells s l1).2 + (insert_cells (insert_cells s l1).1 l2).2)%nat).
Proof.
  unfold insert_cells at 1. rewrite foldl_app.
  fold (insert_cells s l1). rewrite (insert_cells_spec s l1). simpl.
  rewrite insert_cells_acc, insert_cells_spec. done.
Qed.

Lemma size_list_to_set_NoDup (l : list Z) :
  size (list_to_set l : gset Z) = length l ↔ NoDup l.
Proof.
  split; [|apply size_list_to_set].
  induction l as [|w l IH]; [constructor|].
  rewrite list_to_set_cons. simpl. intros Hsize.
  pose proof (size_list_to_set_le l) as Hle.
  destruct (decide (w ∈ (list_to_set l : gset Z))) as [Hin|Hin].
  - replace ({[w]} ∪ list_to_set l) with (list_to_set l : gset Z) in Hsize
      by set_solver.
    lia.
  - rewrite size_union, size_singleton in Hsize by set_solver.
    constructor; [by rewrite elem_of_list_to_set in Hin|].
    apply IH. lia.
Qed.

Lemma NoDup_cell_keys (cells : list Cell) :
  Forall cell_in_range cells →
  NoDup (cell_key <$> cells) ↔ NoDup cells.
Proof.
  intros Hrange. split; [apply NoDup_fmap_1|].
  apply NoDup_fmap_2_strong. intros c d Hc Hd.
  rewrite Forall_forall in Hrange. apply cell_key_inj; auto.
Qed.

Lemma keys_of_live_cells (s : gset Z) :
  wf s → (list_to_set (cell_key <$> get_live_cells s) : gset Z) = s.
Proof.
  intros Hwf. apply set_eq. intros w.
  rewrite elem_of_list_to_set, list_elem_of_fmap.
  unfold get_live_cells, get_live_cells_from.
  setoid_rewrite sort_cells_perm. setoid_rewrite list_elem_of_fmap.
  setoid_rewrite elem_of_elements. split.
  - intros (c & -> & v & -> & Hv).
    unfold cell_key, Cell_of_whole. simpl. by rewrite key_XX_YY by auto.
  - intros Hw. exists (Cell_of_whole w). split; [|eauto].
    unfold cell_key, Cell_of_whole. simpl. by rewrite key_XX_YY by auto.
Qed.

Lemma length_get_live_cells (s : gset Z) :
  length (get_live_cells s) = size s.
Proof.
  unfold get_live_cells, get_live_cells_from.
  by rewrite sort_cells_perm, length_fmap.
Qed.

End seeding_more.

(** X8.  [insert_cells] does not depend on the order of its input: two lists
    with the same members, in particular a list and any permutation of it,
    give the same live-cell set and the same return value. *)
Theorem insert_cells_order_invariant (cells_m : gset Z)
    (cells cells' : cell_list_type) :
  ((∀ c, c ∈ cells ↔ c ∈ cells') →
   insert_cells cells_m cells = insert_cells cells_m cells') ∧
  (cells ≡ₚ cells' →
   insert_cells cells_m cells = insert_cells cells_m cells').
Proof.
  assert (Hgen : (∀ c, c ∈ cells ↔ c ∈ cells') →
                 insert_cells cells_m cells = insert_cells cells_m cells').
  { intros H. rewrite !insert_cells_spec.
    by rewrite (keys_same_elements cells cells' H). }
  split; [exact Hgen|].
  intros Hperm. apply Hgen. intros c. by rewrite Hperm.
Qed.

Lemma insert_cells_order_invariant_witness :
  blinker_h ≡ₚ reverse blinker_h ∧
  insert_cells ∅ blinker_h = insert_cells ∅ (reverse blinker_h).
Proof.
  assert (Hperm : blinker_h ≡ₚ reverse blinker_h)
    by (symmetry; apply reverse_Permutation).
  split; [exact Hperm|].
  exact (proj2 (insert_cells_order_invariant ∅ _ _) Hperm).
Defined.

(** X9.  After [insert_cells] a key is alive exactly when it was alive before
    or is the key of a listed cell, and [count()] has grown by the returned
    number. *)
Theorem insert_cells_lookup (cells_m : gset Z) (cells : cell_list_type) :
  (∀ w, is_alive (insert_cells cells_m cells).1 w = 1%nat
        ↔ is_alive cells_m w = 1%nat
          ∨ ∃ c, c ∈ cells ∧ w = key (cell_x c) (cell_y c)) ∧
  count (insert_cells cells_m cells).1
  = (count cells_m + (insert_cells cells_m cells).2)%nat.
Proof.
  rewrite insert_cells_spec. cbn [fst snd]. split.
  - intros w. rewrite !is_alive_1, elem_of_union, elem_of_keys. tauto.
  - unfold count.
    pose proof (size_union_alt cells_m
                  (list_to_set (cell_key <$> cells) : gset Z)) as Hsize.
    rewrite (union_comm_L (C := gset Z) cells_m) in Hsize. lia.
Qed.

(** X10.  Inserting a concatenation is inserting the first list and then the
    second into the resulting state, the two return values adding up. *)
Theorem insert_cells_concat (cells_m : gset Z) (l1 l2 : cell_list_type) :
  (insert_cells cells_m (l1 ++ l2)).1
  = (insert_cells (insert_cells cells_m l1).1 l2).1 ∧
  (insert_cells cells_m (l1 ++ l2)).2
  = ((insert_cells cells_m l1).2
     + (insert_cells (insert_cells cells_m l1).1 l2).2)%nat.
Proof. by rewrite insert_cells_app. Qed.

(** X11.  The count check at the start of [RunTest] reports a mismatch
    exactly when the list of cells read holds some coordinate twice. *)
Theorem count_mismatch_iff_duplicate (cells : cell_list_type) :
  Forall cell_in_range cells →
  (count_mismatch cells = true ↔ ¬ NoDup cells) ∧
  (count (insert_cells ∅ cells).1 ≤ length cells)%nat.
Proof.
  intros Hrange. unfold count_mismatch, count.
  rewrite insert_cells_spec. cbn [fst].
  replace (list_to_set (cell_key <$> cells) ∪ ∅)
    with (list_to_set (cell_key <$> cells) : gset Z) by set_solver.
  split.
  - rewrite negb_true_iff, Nat.eqb_neq.
    rewrite <- (NoDup_cell_keys cells Hrange), <- size_list_to_set_NoDup.
    by rewrite length_fmap.
  - etrans; [apply size_list_to_set_le|]. by rewrite length_fmap.
Qed.

Lemma count_mismatch_iff_duplicate_witness :
  let cells := [mkCell 0 0; mkCell 1 0; mkCell 0 0] in
  Forall cell_in_range cells ∧
  (count_mismatch cells = true ↔ ¬ NoDup cells) ∧
  (count (insert_cells ∅ cells).1 ≤ length cells)%nat.
Proof.
  intros cells.
  assert (Hrange : Forall cell_in_range cells)
    by (repeat constructor; unfold is_i32; simpl; lia).
  split; [exact Hrange|]. exact (count_mismatch_iff_duplicate cells Hrange).
Defined.

(** X12.  Reading the state back and seeding a fresh organism with it
    reproduces the state: [insert_cells] of [get_live_cells()] into an empty
    organism gives the same live-cell set and returns [count()]. *)
Theorem live_cells_reseed (cells_m : gset Z) :
  wf cells_m →
  insert_cells ∅ (get_live_cells cells_m) = (cells_m, count cells_m).
Proof.
  intros Hwf. rewrite insert_cells_spec, keys_of_live_cells by done.
  f_equal; [set_solver|]. unfold count. f_equal. set_solver.
Qed.

Lemma live_cells_reseed_witness :
  wf (seed blinker_v) ∧
  insert_cells ∅ (get_live_cells (seed blinker_v))
  = (seed blinker_v, count (seed blinker_v)).
Proof.
  assert (Hwf : wf (seed blinker_v)) by apply wf_insert_cells, wf_empty.
  split; [exact Hwf|]. exact (live_cells_reseed _ Hwf).
Defined.

(** X13.  Seeding an empty organism with cells of 32-bit coordinates and
    reading the state back returns the input without its repetitions, in
    sorted order. *)
Theorem seed_then_live_cells (cells : cell_list_type) :
  Forall cell_in_range cells →
  get_live_cells (insert_cells ∅ cells).1 = sort_cells (remove_dups cells) ∧
  get_live_cells (insert_cells ∅ cells).1 ≡ₚ remove_dups cells.
Proof.
  intros Hrange.
  assert (Hwf : wf (insert_cells ∅ cells).1)
    by apply wf_insert_cells, wf_empty.
  assert (Hperm : get_live_cells (insert_cells ∅ cells).1
                  ≡ₚ remove_dups cells).
  { apply NoDup_Permutation.
    - unfold get_live_cells, get_live_cells_from. rewrite sort_cells_perm.
      apply NoDup_fmap_2_strong; [|apply NoDup_elements].
      intros w w' Hw%elem_of_elements Hw'%elem_of_elements.
      apply Cell_of_whole_inj; auto.
    - apply NoDup_remove_dups.
    - intros c. unfold get_live_cells, get_live_cells_from.
      rewrite sort_cells_perm, elem_of_remove_dups.
      rewrite (cells_of_order (insert_cells ∅ cells).1)
        by (done || apply elem_of_elements).
      rewrite is_alive_1, insert_cells_spec. cbn [fst].
      rewrite elem_of_union, elem_of_keys.
      rewrite Forall_forall in Hrange. split.
      + intros [Hc [(d & Hd & Heq)|Hemp]]; [|set_solver].
        assert (c = d) as -> by (apply cell_key_inj; auto). done.
      + intros Hc. split; [auto|]. left. eauto. }
  split; [|exact Hperm].
  apply sort_cells_unique; [exact Hperm|].
  unfold get_live_cells, get_live_cells_from. apply sort_cells_sorted.
Qed.

Lemma seed_then_live_cells_witness :
  let cells := [mkCell 2 0; mkCell 0 0; mkCell 2 0; mkCell 1 (-1)] in
  Forall cell_in_range cells ∧
  get_live_cells (insert_cells ∅ cells).1 = sort_cells (remove_dups cells).
Proof.
  intros cells.
  assert (Hrange : Forall cell_in_range cells)
    by (repeat constructor; unfold is_i32; simpl; lia).
  split; [exact Hrange|]. exact (proj1 (seed_then_live_cells cells Hrange)).
Defined.

(** ** Translations *)

Section translation.
Context (a b : Z).

Lemma shift_u64 w : is_u64 (shift a b w).
Proof. apply key_is_u64. Qed.

Lemma shift_key x y : shift a b (key x y) = key (x + a) (y + b).
Proof.
  unfold shift. rewrite XX_key, YY_key.
  apply key_congr; apply i32_add_i32.
Qed.

Lemma shift_back w : is_u64 w → key (XX (shift a b w) - a) (YY (shift a b w) - b) = w.
Proof.
  intros Hw. unfold shift. rewrite XX_key, YY_key.
  rewrite <- (key_XX_YY w Hw) at 3.
  apply key_congr.
  - change (i32 (XX w + a) - a) with (i32 (XX w + a) + - a).
    rewrite i32_add_i32. f_equal. lia.
  - change (i32 (YY w + b) - b) with (i32 (YY w + b) + - b).
    rewrite i32_add_i32. f_equal. lia.
Qed.

Lemma shift_inj v w :
  is_u64 v → is_u64 w → shift a b v = shift a b w → v = w.
Proof.
  intros Hv Hw Heq.
  by rewrite <- (shift_back v Hv), <- (shift_back w Hw), Heq.
Qed.

Lemma elem_of_translate (s : gset Z) w :
  w ∈ translate a b s ↔ ∃ v, w = shift a b v ∧ v ∈ s.
Proof. unfold translate. apply elem_of_map. Qed.

Lemma shift_elem_of_translate (s : gset Z) v :
  wf s → is_u64 v → shift a b v ∈ translate a b s ↔ v ∈ s.
Proof.
  intros Hwf Hv. rewrite elem_of_translate. split.
  - intros (v' & Heq & Hv'). apply shift_inj in Heq; auto. by subst.
  - eauto.
Qed.

Lemma neighbours_shift v :
  neighbours (XX (shift a b v)) (YY (shift a b v))
  = shift a b <$> neighbours (XX v) (YY v).
Proof.
  rewrite !neighbours_offsets, <- list_fmap_compose.
  apply list_fmap_ext. intros _ p _. simpl.
  rewrite shift_key. unfold shift. rewrite XX_key, YY_key.
  apply key_congr; rewrite i32_add_i32; f_equal; lia.
Qed.

Lemma length_filter_fmap {A B} (f : A → B) (P : B → Prop)
    `{∀ x, Decision (P x)} (l : list A) :
  length (filter P (f <$> l)) = length (filter (λ x, P (f x)) l).
Proof.
  induction l as [|x l IH]; [done|].
  rewrite fmap_cons, !filter_cons.
  destruct (decide (P (f x))); simpl; by rewrite IH.
Qed.

Lemma nlive_translate (s : gset Z) v :
  wf s → nlive (translate a b s) (shift a b v) = nlive s v.
Proof.
  intros Hwf. unfold nlive.
  rewrite !get_num_live_filter, neighbours_shift, length_filter_fmap.
  f_equal. apply filter_agree. intros w Hw.
  apply shift_elem_of_translate; [done|]. by eapply neighbours_u64.
Qed.

Lemma wf_translate (s : gset Z) : wf (translate a b s).
Proof. intros w (v & -> & _)%elem_of_translate. apply shift_u64. Qed.

End translation.

Lemma shift_shift a b w :
  is_u64 w → shift a b (shift (- a) (- b) w) = w.
Proof.
  intros Hw. unfold shift at 2. rewrite shift_key.
  rewrite <- (key_XX_YY w Hw) at 3. f_equal; lia.
Qed.

(** The next generation of a moved population is the moved next
    generation. *)
Lemma next_generation_translate a b (s : gset Z) (order order' : list Z) :
  wf s →
  (∀ c, c ∈ order ↔ c ∈ s) →
  (∀ c, c ∈ order' ↔ c ∈ translate a b s) →
  next_generation order' (translate a b s)
  = translate a b (next_generation order s).
Proof.
  intros Hwf Horder Horder'. apply set_eq. intros w.
  rewrite elem_of_translate, next_generation_rule by done.
  setoid_rewrite (next_generation_rule s order); [|done..].
  split.
  - intros [[Hin Hn]|(Hw & Hout & Hn)].
    + apply elem_of_translate in Hin as (v & -> & Hv).
      rewrite nlive_translate in Hn by done.
      exists v. split; [done|]. by left.
    + exists (shift (- a) (- b) w).
      rewrite <- (shift_shift a b w Hw) in Hout, Hn.
      rewrite nlive_translate in Hn by done.
      rewrite shift_elem_of_translate in Hout by (done || apply shift_u64).
      split; [by rewrite shift_shift|]. right.
      split_and!; [apply shift_u64|done..].
  - intros (v & -> & [[Hin Hn]|(Hv & Hout & Hn)]).
    + left. rewrite nlive_translate by done.
      split; [|done]. apply elem_of_translate. eauto.
    + right. rewrite nlive_translate by done.
      split_and!; [apply shift_u64| |done].
      by rewrite shift_elem_of_translate.
Qed.

Lemma seed_keys (cells : list Cell) :
  seed cells = list_to_set (cell_key <$> cells).
Proof. unfold seed. rewrite insert_cells_spec. simpl. set_solver. Qed.

Lemma translate_seed a b (cells : list Cell) :
  translate a b (seed cells)
  = seed ((λ c, mkCell (cell_x c + a) (cell_y c + b)) <$> cells).
Proof.
  rewrite !seed_keys. apply set_eq. intros w.
  rewrite elem_of_translate, elem_of_list_to_set.
  setoid_rewrite elem_of_list_to_set.
  rewrite <- list_fmap_compose. setoid_rewrite list_elem_of_fmap.
  unfold cell_key. simpl. split.
  - intros (v & -> & c & -> & Hc). exists c. by rewrite shift_key.
  - intros (c & -> & Hc). exists (key (cell_x c) (cell_y c)).
    rewrite shift_key. eauto.
Qed.

(** X14.  [tick] commutes with translations: moving every cell of a
    population by [(a, b)] moves its next generation by [(a, b)]. *)
Theorem tick_translation_invariant (a b : Z) (cells_m : gset Z)
    (order order' zcells0 zcells0' : list Z) :
  wf cells_m →
  order ≡ₚ elements cells_m →
  order' ≡ₚ elements (translate a b cells_m) →
  length zcells0 = 8%nat →
  length zcells0' = 8%nat →
  ∃ new_cells,
    tick_from order zcells0 cells_m = Some new_cells ∧
    tick_from order' zcells0' (translate a b cells_m)
    = Some (translate a b new_cells).
Proof.
  intros Hwf Horder Horder' Hz Hz'.
  exists (next_generation order cells_m).
  rewrite !tick_from_ok by lia. split; [done|]. f_equal.
  apply next_generation_translate; [done|by apply perm_enumerates..].
Qed.

Lemma tick_translation_invariant_witness :
  let s := seed blinker_h in
  wf s ∧ elements s ≡ₚ elements s ∧
  elements (translate 10 (-7) s) ≡ₚ elements (translate 10 (-7) s) ∧
  length (replicate 8 0) = 8%nat ∧
  ∃ new_cells,
    tick_from (elements s) (replicate 8 0) s = Some new_cells ∧
    tick_from (elements (translate 10 (-7) s)) (replicate 8 0)
      (translate 10 (-7) s)
    = Some (translate 10 (-7) new_cells).
Proof.
  intros s.
  assert (Hwf : wf s) by apply wf_insert_cells, wf_empty.
  split; [exact Hwf|]. split; [reflexivity|]. split; [reflexivity|].
  split; [reflexivity|].
  apply tick_translation_invariant; (exact Hwf || reflexivity).
Defined.

Section patterns.

Lemma tick_moved_pattern (cells cells' : list Cell) a b order zcells0 :
  next_generation (elements (seed cells)) (seed cells) = seed cells' →
  order ≡ₚ elements (translate a b (seed cells)) →
  length zcells0 = 8%nat →
  tick_from order zcells0 (translate a b (seed cells))
  = Some (translate a b (seed cells')).
Proof.
  intros Hnext Horder Hz. rewrite tick_from_ok by lia. f_equal.
  rewrite <- Hnext. apply next_generation_translate.
  - apply wf_insert_cells, wf_empty.
  - intros c. apply elem_of_elements.
  - by apply perm_enumerates.
Qed.

Lemma block_at_translate x y : seed (block_at x y) = translate x y (seed (block_at 0 0)).
Proof.
  rewrite translate_seed. unfold block_at. cbn [fmap list_fmap cell_x cell_y].
  replace (0 + 1 + x) with (x + 1) by lia.
  replace (0 + 1 + y) with (y + 1) by lia.
  by rewrite !Z.add_0_l.
Qed.

Lemma blinker_h_at_translate x y :
  seed (blinker_h_at x y) = translate x y (seed (blinker_h_at 0 0)).
Proof.
  rewrite translate_seed. unfold blinker_h_at.
  cbn [fmap list_fmap cell_x cell_y].
  replace (0 + 1 + x) with (x + 1) by lia.
  replace (0 - 1 + x) with (x - 1) by lia.
  by rewrite !Z.add_0_l.
Qed.

Lemma blinker_v_at_translate x y :
  seed (blinker_v_at x y) = translate x y (seed (blinker_v_at 0 0)).
Proof.
  rewrite translate_seed. unfold blinker_v_at.
  cbn [fmap list_fmap cell_x cell_y].
  replace (0 + 1 + y) with (y + 1) by lia.
  replace (0 - 1 + y) with (y - 1) by lia.
  by rewrite !Z.add_0_l.
Qed.

End patterns.

(** X15.  The 2x2 block is a still life wherever it is placed: one [tick]
    leaves the live-cell set exactly unchanged. *)
Theorem block_still_life (x y : Z) (order zcells0 : list Z) :
  order ≡ₚ elements (seed (block_at x y)) →
  length zcells0 = 8%nat →
  tick_from order zcells0 (seed (block_at x y)) = Some (seed (block_at x y)).
Proof.
  rewrite block_at_translate. apply tick_moved_pattern.
  vm_compute. reflexivity.
Qed.

Lemma block_still_life_witness :
  let s := seed (block_at 100 (-3)) in
  elements s ≡ₚ elements s ∧ length (replicate 8 0) = 8%nat ∧
  tick_from (elements s) (replicate 8 0) s = Some s.
Proof.
  intros s. split; [reflexivity|]. split; [reflexivity|].
  apply block_still_life; reflexivity.
Defined.

(** X16.  The blinker oscillates with period 2 wherever it is placed: the
    horizontal line centred on [(x, y)] becomes the vertical one and the
    vertical one becomes the horizontal one. *)
Theorem blinker_anywhere (x y : Z) (order zcells0 : list Z) :
  length zcells0 = 8%nat →
  (order ≡ₚ elements (seed (blinker_h_at x y)) →
   tick_from order zcells0 (seed (blinker_h_at x y))
   = Some (seed (blinker_v_at x y))) ∧
  (order ≡ₚ elements (seed (blinker_v_at x y)) →
   tick_from order zcells0 (seed (blinker_v_at x y))
   = Some (seed (blinker_h_at x y))).
Proof.
  intros Hz. rewrite blinker_h_at_translate, blinker_v_at_translate.
  split; intros Horder; apply tick_moved_pattern; try done;
    vm_compute; reflexivity.
Qed.

Lemma blinker_anywhere_witness :
  let s := seed (blinker_h_at (-20) 7) in
  length (replicate 8 0) = 8%nat ∧ elements s ≡ₚ elements s ∧
  tick_from (elements s) (replicate 8 0) s = Some (seed (blinker_v_at (-20) 7)).
Proof.
  intros s. split; [reflexivity|]. split; [reflexivity|].
  destruct (blinker_anywhere (-20) 7 (elements s) (replicate 8 0) eq_refl)
    as [Hh _].
  apply Hh. reflexivity.
Defined.
